(** * Writ: the inline markdown formatting core

    A shallow embedding of [class Format] of [writ.py] (the delimiter
    toggle, headings, link and code block insertion, list items) and of the
    two cursor conversions of [class Writ] ([_get_cursor_position],
    [_set_cursor_position]), with the properties of the formatting
    specification checked against them.

    - A Python [str] is a list of Unicode code points ([N]).
    - A Python [int] is a [Z]; slices and subscripts follow Python for every
      integer, negative ones included.
    - A Python function that can raise ([IndexError] on a subscript) returns
      an [option]; [None] is the raised exception. *)

From Stdlib Require Import ZArith NArith List Lia Bool String Ascii.
From stdpp Require Import base option list.

Open Scope Z_scope.

(** ** Python values *)

(** A character is its code point; a [str] is the list of its characters. *)
Abbreviation char := N (only parsing).
Abbreviation str := (list N) (only parsing).

Module Py.

(** [len(s)] *)
Definition len {A} (s : list A) : Z := Z.of_nat (length s).

(** How a slice bound [i] is brought into [0 .. n]: a negative bound counts
    from the end, and both kinds are clamped. *)
Definition clamp_index (n i : Z) : Z :=
  if i <? 0 then Z.max 0 (i + n) else Z.min i n.

(** [s[a:b]] *)
Definition slice {A} (s : list A) (a b : Z) : list A :=
  let lo := clamp_index (len s) a in
  let hi := clamp_index (len s) b in
  take (Z.to_nat (hi - lo)) (drop (Z.to_nat lo) s).

(** [s[:b]] *)
Definition slice_to {A} (s : list A) (b : Z) : list A := slice s 0 b.

(** [s[a:]] *)
Definition slice_from {A} (s : list A) (a : Z) : list A := slice s a (len s).

(** Where the subscript [i] points, or [None] for an [IndexError]. *)
Definition subscript (n i : Z) : option nat :=
  let j := if i <? 0 then i + n else i in
  if (0 <=? j) && (j <? n) then Some (Z.to_nat j) else None.

(** [s[i]] *)
Definition index {A} (s : list A) (i : Z) : option A :=
  j ← subscript (len s) i; s !! j.

(** [s[i] = v], as the list after the assignment *)
Definition setitem {A} (s : list A) (i : Z) (v : A) : option (list A) :=
  j ← subscript (len s) i; Some (<[j := v]> s).

(** [c * n] for a one-character string [c] *)
Definition times (c : char) (n : Z) : str := replicate (Z.to_nat n) c.

(** [range(start, stop, step)] for a positive [step] *)
Definition range_step (start stop step : Z) : list Z :=
  map (fun k => start + Z.of_nat k * step)
      (seq 0 (Z.to_nat ((stop - start + step - 1) / step))).

(** [range(stop)] *)
Definition range (stop : Z) : list Z := range_step 0 stop 1.

(** [s.split(sep)] for a one-character separator *)
Fixpoint split (sep : char) (s : str) : list str :=
  match s with
  | [] => [[]]
  | c :: s' =>
      if N.eqb c sep then [] :: split sep s'
      else match split sep s' with
           | l :: ls => (c :: l) :: ls
           | [] => [[c]]
           end
  end.

(** [sep.join(ls)] *)
Fixpoint join (sep : str) (ls : list str) : str :=
  match ls with
  | [] => []
  | [l] => l
  | l :: ls' => l ++ sep ++ join sep ls'
  end.

(** [s.startswith(p)] *)
Fixpoint startswith (s p : str) : bool :=
  match p, s with
  | [], _ => true
  | _ :: _, [] => false
  | a :: p', c :: s' => N.eqb c a && startswith s' p'
  end.

(** [Py_UNICODE_ISSPACE]: the code points that [str.lstrip()] strips and
    that [\s] matches in a [str] pattern. *)
Definition isspace (c : char) : bool :=
  ((9 <=? c) && (c <=? 13) || (28 <=? c) && (c <=? 32)
   || (c =? 133) || (c =? 160) || (c =? 5760)
   || (8192 <=? c) && (c <=? 8202)
   || (c =? 8232) || (c =? 8233) || (c =? 8239) || (c =? 8287)
   || (c =? 12288))%N.

(** [s.lstrip()] *)
Fixpoint lstrip (s : str) : str :=
  match s with
  | c :: s' => if isspace c then lstrip s' else s
  | [] => []
  end.

(** A string literal as a [str]. *)
Definition lit (s : string) : str := map N_of_ascii (list_ascii_of_string s).

Definition nl : char := 10%N.

End Py.

Import Py.

(** ** The two regular expressions of the source *)

Module Re.

(** A match object: [m.start()] and [m.end()]. *)
Record Match := { m_start : Z; m_end : Z }.

(** [re.finditer(re.escape(wrapper), s)]: the occurrences of the literal,
    non-empty [wrapper] in [s], left to right and without overlap. The
    scan is at offset [i] of the searched string; [skip] counts the
    characters of the last occurrence that are still to be passed. *)
Fixpoint finditer_from (wrapper s : str) (i : Z) (skip : nat) : list Match :=
  match s with
  | [] => []
  | _ :: s' =>
      match skip with
      | S k => finditer_from wrapper s' (i + 1) k
      | O =>
          if startswith s wrapper
          then {| m_start := i; m_end := i + len wrapper |}
                 :: finditer_from wrapper s' (i + 1) (Nat.pred (length wrapper))
          else finditer_from wrapper s' (i + 1) 0
      end
  end.

Definition finditer (wrapper s : str) : list Match :=
  finditer_from wrapper s 0 0.

Definition hash : char := 35%N.
Definition space : char := 32%N.

(** The greedy [#{1,most}] at the head of [s]: how many characters it takes. *)
Fixpoint hashes (most : nat) (s : str) : nat :=
  match most, s with
  | S k, c :: s' => if N.eqb c hash then S (hashes k s') else O
  | _, _ => O
  end.

(** The greedy [\s*] at the head of [s]: how many characters it takes. *)
Fixpoint spaces (s : str) : nat :=
  match s with
  | c :: s' => if isspace c then S (spaces s') else O
  | [] => O
  end.

(** [re.match(r'^(#{1,6})\s*', line)]; [None] when there is no match. *)
Definition match_heading (line : str) : option Match :=
  match hashes 6 line with
  | O => None
  | k => Some {| m_start := 0;
                 m_end := Z.of_nat (k + spaces (drop k line)) |}
  end.

End Re.

Import Re.

(** ** [class Format] *)

Module Format.

(** The loop shared by [heading], [codeBlock], [listItem] and
    [_set_cursor_position]:
<<
    for i, line in enumerate(lines):
        if current_pos + len(line) >= pos:
            ... i ...
            break
        current_pos += len(line) + 1
>>
    The result is the index at which the loop broke ([None] when it ran to
    the end) and the value of [current_pos] when it stopped. *)
Fixpoint line_walk (lines : list str) (pos i current_pos : Z)
  : option Z * Z :=
  match lines with
  | [] => (None, current_pos)
  | line :: rest =>
      if current_pos + len line >=? pos then (Some i, current_pos)
      else line_walk rest pos (i + 1) (current_pos + len line + 1)
  end.

(** The loop of [_wrap] over [range(0, len(matches) - 1, 2)]; [Some r] in
    the result is [return r] from inside the loop, [None] is the loop
    running to its end. *)
Fixpoint wrap_loop (text : str) (left search_pos wlen : Z)
    (matches : list Match) (idx : list Z) : option (option (str * Z)) :=
  match idx with
  | [] => Some None
  | i :: idx' =>
      if i + 1 <? len matches then
        start_match ← index matches i;
        end_match ← index matches (i + 1);
        if (m_end start_match <=? search_pos)
           && (search_pos <=? m_start end_match)
        then
          let actual_start := left + m_start start_match in
          let actual_end := left + m_end end_match in
          let content := slice text (actual_start + wlen) (actual_end - wlen) in
          let new_text :=
            slice_to text actual_start ++ content ++ slice_from text actual_end in
          let new_pos := actual_start + len content in
          Some (Some (new_text, new_pos))
        else wrap_loop text left search_pos wlen matches idx'
      else wrap_loop text left search_pos wlen matches idx'
  end.

Definition _wrap (text : str) (pos : Z) (wrapper : str) : option (str * Z) :=
  let wlen := len wrapper in
  let left := Z.max 0 (pos - 20) in
  let right := Z.min (len text) (pos + 20) in
  let search_text := slice text left right in
  let search_pos := pos - left in
  let matches := finditer wrapper search_text in
  returned ← wrap_loop text left search_pos wlen matches
               (range_step 0 (len matches - 1) 2);
  match returned with
  | Some r => Some r
  | None =>
      let new_text := slice_to text pos ++ wrapper ++ wrapper ++ slice_from text pos in
      let new_pos := pos + wlen in
      Some (new_text, new_pos)
  end.

Definition bold (text : str) (pos : Z) := _wrap text pos (lit "**").
Definition italic (text : str) (pos : Z) := _wrap text pos (lit "*").
Definition inlineCode (text : str) (pos : Z) := _wrap text pos (lit "`").

Definition heading (text : str) (pos level : Z) : option (str * Z) :=
  if negb ((1 <=? level) && (level <=? 6)) then Some (text, pos)
  else
    let lines := split nl text in
    let '(found, current_pos) := line_walk lines pos 0 0 in
    let target_line := default 0 found in
    line ← index lines target_line;
    let heading_match := match_heading line in
    let new_line :=
      match heading_match with
      | Some m => times hash level ++ [space] ++ slice_from line (m_end m)
      | None => times hash level ++ [space] ++ line
      end in
    old ← index lines target_line;
    let old_len := len old in
    lines' ← setitem lines target_line new_line;
    let new_text := join [nl] lines' in
    let pos_in_line := pos - current_pos in
    let new_pos :=
      current_pos + Z.min (pos_in_line + (len new_line - old_len)) (len new_line) in
    Some (new_text, new_pos).

Definition link (text : str) (pos : Z) : option (str * Z) :=
  let link_text := lit "[text](url)" in
  let new_text := slice_to text pos ++ link_text ++ slice_from text pos in
  let new_pos := pos + 1 in
  Some (new_text, new_pos).

Definition codeBlock (text : str) (pos : Z) : option (str * Z) :=
  let lines := split nl text in
  let '(found, current_pos) := line_walk lines pos 0 0 in
  let line_start := match found with Some _ => current_pos | None => len text end in
  mid_line ←
    (if pos >? 0 then c ← index text (pos - 1); Some (negb (N.eqb c nl))
     else Some false);
  let '(block, new_pos) :=
    if (mid_line : bool)
    then ([nl] ++ lit "```" ++ [nl; nl] ++ lit "```" ++ [nl], pos + 5)
    else (lit "```" ++ [nl; nl] ++ lit "```" ++ [nl], pos + 4) in
  let new_text := slice_to text pos ++ block ++ slice_from text pos in
  Some (new_text, new_pos).

Definition listItem (text : str) (pos : Z) : option (str * Z) :=
  let lines := split nl text in
  let '(found, current_pos) := line_walk lines pos 0 0 in
  let target_line := default 0 found in
  line ← index lines target_line;
  let stripped := lstrip line in
  let '(new_line, pos_change) :=
    if startswith stripped (lit "- ") then
      let indent := slice_to line (len line - len stripped) in
      (indent ++ slice_from stripped 2, -2)
    else
      let indent := slice_to line (len line - len stripped) in
      (indent ++ lit "- " ++ stripped, 2) in
  lines' ← setitem lines target_line new_line;
  let new_text := join [nl] lines' in
  let new_pos := pos + pos_change in
  Some (new_text, new_pos).

End Format.

(** ** The cursor conversions of [class Writ] *)

Module Writ.

Import Format.

(** What the two methods read and write of [self.editor]. *)
Record Editor := { text : str; cursor_location : Z * Z }.

(** The loop [for i in range(row): if i < len(lines): pos += len(lines[i]) + 1]. *)
Fixpoint sum_loop (lines : list str) (idx : list Z) (pos : Z) : option Z :=
  match idx with
  | [] => Some pos
  | i :: idx' =>
      if i <? len lines then
        line ← index lines i; sum_loop lines idx' (pos + (len line + 1))
      else sum_loop lines idx' pos
  end.

Definition _get_cursor_position (self : Editor) : option Z :=
  let '(row, col) := cursor_location self in
  let lines := split nl (text self) in
  pos ← sum_loop lines (range row) 0;
  if row <? len lines then
    line ← index lines row; Some (pos + Z.min col (len line))
  else Some pos.

(** The editor after the call. *)
Definition _set_cursor_position (self : Editor) (pos : Z) : option Editor :=
  let lines := split nl (text self) in
  match line_walk lines pos 0 0 with
  | (Some row, current_pos) =>
      let col := pos - current_pos in
      Some {| text := text self; cursor_location := (row, col) |}
  | (None, _) =>
      match lines with
      | [] => Some self
      | _ :: _ =>
          last ← index lines (-1);
          Some {| text := text self;
                  cursor_location := (len lines - 1, len last) |}
      end
  end.

(** [_format_text(func, *args)]: the offset of the cursor is computed, [func]
    is called on the text and that offset, its text is assigned to
    [self.editor.text], and [_set_cursor_position] is called with its offset
    (the source schedules that call with [call_after_refresh]; it is made
    here on the editor as the assignment left it). [assign_text] is the
    assignment: what it does to the editor belongs to the widget. [func]
    comes with its extra arguments applied. *)
Definition _format_text (assign_text : Editor -> str -> Editor)
    (self : Editor) (func : str -> Z -> option (str * Z)) : option Editor :=
  pos ← _get_cursor_position self;
  '(new_text, new_pos) ← func (text self) pos;
  _set_cursor_position (assign_text self new_text) new_pos.

Definition action_bold assign_text self := _format_text assign_text self bold.
Definition action_italic assign_text self := _format_text assign_text self italic.
Definition action_inline_code assign_text self :=
  _format_text assign_text self inlineCode.
Definition action_link assign_text self := _format_text assign_text self link.
Definition action_code_block assign_text self :=
  _format_text assign_text self codeBlock.
Definition action_list assign_text self := _format_text assign_text self listItem.
Definition action_h1 assign_text self :=
  _format_text assign_text self (fun text pos => heading text pos 1).
Definition action_h2 assign_text self :=
  _format_text assign_text self (fun text pos => heading text pos 2).
Definition action_h3 assign_text self :=
  _format_text assign_text self (fun text pos => heading text pos 3).
Definition action_h4 assign_text self :=
  _format_text assign_text self (fun text pos => heading text pos 4).
Definition action_h5 assign_text self :=
  _format_text assign_text self (fun text pos => heading text pos 5).
Definition action_h6 assign_text self :=
  _format_text assign_text self (fun text pos => heading text pos 6).

End Writ.

Import Format Writ.

(** ** The vocabulary of the properties *)

(** The offset in the document at which line [k] of [lines] starts: every
    line before it counts for its length and its newline. *)
Fixpoint line_start (lines : list str) (k : nat) : Z :=
  match k, lines with
  | S k', l :: rest => len l + 1 + line_start rest k'
  | _, _ => 0
  end.

(** The three delimiters that [bold], [italic] and [inlineCode] pass to
    [_wrap]. *)
Definition delimiters : list str := [lit "**"; lit "*"; lit "`"].

(** The search window of [_wrap]: at most 20 characters on each side of
    [pos], and [pos] in the coordinates of the window. *)
Definition window (text : str) (pos : Z) : str :=
  slice text (Z.max 0 (pos - 20)) (Z.min (len text) (pos + 20)).

Definition window_pos (pos : Z) : Z := pos - Z.max 0 (pos - 20).

(** An enclosing pair: occurrences [2k] and [2k+1] of the delimiter in the
    window, with the offset between the end of the first and the start of
    the second. *)
Definition enclosing_pair (wrapper text : str) (pos : Z) : Prop :=
  exists (k : nat) m1 m2,
    finditer wrapper (window text pos) !! (2 * k)%nat = Some m1
    /\ finditer wrapper (window text pos) !! (2 * k + 1)%nat = Some m2
    /\ m_end m1 <= window_pos pos <= m_start m2.

(** A string that starts with a whitespace character, with a [#]. *)
Definition starts_with_space (s : str) : Prop :=
  exists c s', s = c :: s' /\ isspace c = true.

Definition starts_with_hash (s : str) : Prop := exists s', s = hash :: s'.

(** [marker_stripped line rest]: [rest] is [line] without its heading
    marker. The marker is the leading run of [#], at most six of them, and
    all the whitespace after it; a line that does not start with [#] has no
    marker. *)
Inductive marker_stripped (line rest : str) : Prop :=
| no_marker :
    ~ starts_with_hash line -> rest = line -> marker_stripped line rest
| marker (k : nat) (ws : str) :
    (1 <= k <= 6)%nat ->
    line = replicate k hash ++ ws ++ rest ->
    Forall (fun c => isspace c = true) ws ->
    ~ starts_with_space rest ->
    k = 6%nat \/ ws <> [] \/ ~ starts_with_hash rest ->
    marker_stripped line rest.

(** The line that [heading] writes in place of [line]. *)
Definition heading_line (level : Z) (line : str) : str :=
  match match_heading line with
  | Some m => times hash level ++ [space] ++ slice_from line (m_end m)
  | None => times hash level ++ [space] ++ line
  end.

(** The line that [listItem] writes in place of [line], and the change of
    the offset. *)
Definition list_line (line : str) : str * Z :=
  if startswith (lstrip line) (lit "- ") then
    (slice_to line (len line - len (lstrip line)) ++ slice_from (lstrip line) 2, -2)
  else
    (slice_to line (len line - len (lstrip line)) ++ lit "- " ++ lstrip line, 2).

(** [wrapper] does not occur in [s]. *)
Definition no_occurrence (wrapper s : str) : Prop :=
  forall a b, s <> a ++ wrapper ++ b.

(** The round trip of the toggle as the specification states it: at an offset
    whose window has no occurrence of the delimiter, two calls of [_wrap]
    give back the text and the offset. *)
Definition toggle_round_trip_as_stated : Prop :=
  forall (text : str) (pos : Z) (wrapper : str),
    In wrapper delimiters ->
    0 <= pos <= len text ->
    no_occurrence wrapper (window text pos) ->
    exists t1 p1,
      _wrap text pos wrapper = Some (t1, p1)
      /\ _wrap t1 p1 wrapper = Some (text, pos).

(** [chain lo wlen ms]: the matches [ms] come one after the other from
    offset [lo] on, each [wlen] characters long, none overlapping the next. *)
Fixpoint chain (lo wlen : Z) (ms : list Match) : Prop :=
  match ms with
  | [] => True
  | m :: ms' =>
      lo <= m_start m /\ m_end m = m_start m + wlen /\ chain (m_end m) wlen ms'
  end.

(** The operations whose offset stays within the text they return. *)
Definition bounded_operations : list (str -> Z -> option (str * Z)) :=
  [bold; italic; inlineCode; link; codeBlock].

(** ** Lengths, slices and subscripts *)

Section Slices.

Context {A : Type}.
Implicit Types s a b m : list A.

Lemma len_nonneg s : 0 <= len s.
Proof. unfold len. lia. Qed.

Lemma len_app a b : len (a ++ b) = len a + len b.
Proof. unfold len. rewrite length_app. lia. Qed.

Lemma len_cons x s : len (x :: s) = 1 + len s.
Proof. unfold len. simpl. lia. Qed.

Lemma len_nil : len (@nil A) = 0.
Proof. reflexivity. Qed.

Lemma slice_in_range s lo hi :
  0 <= lo -> lo <= len s -> 0 <= hi -> hi <= len s ->
  slice s lo hi = take (Z.to_nat (hi - lo)) (drop (Z.to_nat lo) s).
Proof.
  intros Hlo Hlo' Hhi Hhi'. unfold slice, clamp_index.
  destruct (Z.ltb_spec lo 0), (Z.ltb_spec hi 0); try lia.
  rewrite !Z.min_l by lia. reflexivity.
Qed.

Lemma slice_to_take s p :
  0 <= p -> p <= len s -> slice_to s p = take (Z.to_nat p) s.
Proof.
  intros H0 H1. unfold slice_to. rewrite slice_in_range by lia.
  rewrite Z.sub_0_r. reflexivity.
Qed.

Lemma slice_from_drop s p :
  0 <= p -> p <= len s -> slice_from s p = drop (Z.to_nat p) s.
Proof.
  intros H0 H1. unfold slice_from.
  rewrite slice_in_range by (pose proof (len_nonneg s); lia).
  apply take_ge. rewrite length_drop. unfold len in *. lia.
Qed.

Lemma slice_to_from s p :
  0 <= p -> p <= len s -> slice_to s p ++ slice_from s p = s.
Proof.
  intros H0 H1. rewrite slice_to_take, slice_from_drop by lia.
  apply take_drop.
Qed.

Lemma slice_to_app a b : slice_to (a ++ b) (len a) = a.
Proof.
  rewrite slice_to_take.
  - unfold len. rewrite Nat2Z.id. apply take_app_length.
  - apply len_nonneg.
  - rewrite len_app. pose proof (len_nonneg b). lia.
Qed.

Lemma slice_from_app a b : slice_from (a ++ b) (len a) = b.
Proof.
  rewrite slice_from_drop.
  - unfold len. rewrite Nat2Z.id. apply drop_app_length.
  - apply len_nonneg.
  - rewrite len_app. pose proof (len_nonneg b). lia.
Qed.

Lemma slice_app_mid a m b :
  slice (a ++ m ++ b) (len a) (len a + len m) = m.
Proof.
  pose proof (len_nonneg a). pose proof (len_nonneg m).
  pose proof (len_nonneg b).
  rewrite slice_in_range by (rewrite ?len_app; lia).
  replace (Z.to_nat (len a)) with (length a) by (unfold len; lia).
  rewrite drop_app_length.
  replace (Z.to_nat (len a + len m - len a)) with (length m)
    by (unfold len; lia).
  apply take_app_length.
Qed.

Lemma slice_empty s p : slice s p p = [].
Proof. unfold slice. rewrite Z.sub_diag. reflexivity. Qed.

Lemma index_lookup s (k : nat) :
  (k < length s)%nat -> index s (Z.of_nat k) = s !! k.
Proof.
  intros H. unfold index, subscript, len.
  destruct (Z.ltb_spec (Z.of_nat k) 0); [lia|].
  destruct (Z.leb_spec 0 (Z.of_nat k)); [|lia].
  destruct (Z.ltb_spec (Z.of_nat k) (Z.of_nat (length s))); [|lia].
  simpl. rewrite Nat2Z.id. reflexivity.
Qed.

Lemma index_in_range s i :
  0 <= i < len s -> index s i = s !! Z.to_nat i.
Proof.
  intros H. rewrite <- (index_lookup s (Z.to_nat i)) by (unfold len in H; lia).
  f_equal. lia.
Qed.

Lemma setitem_insert s (k : nat) v :
  (k < length s)%nat -> setitem s (Z.of_nat k) v = Some (<[k := v]> s).
Proof.
  intros H. unfold setitem, subscript, len.
  destruct (Z.ltb_spec (Z.of_nat k) 0); [lia|].
  destruct (Z.leb_spec 0 (Z.of_nat k)); [|lia].
  destruct (Z.ltb_spec (Z.of_nat k) (Z.of_nat (length s))); [|lia].
  simpl. rewrite Nat2Z.id. reflexivity.
Qed.

End Slices.

(** ** Lines of a document *)

Section Lines.

Implicit Types (s l : str) (ls lines : list str).

Lemma split_cons sep s : exists l ls, split sep s = l :: ls.
Proof.
  induction s as [|c s IH]; simpl; [eauto|].
  destruct IH as (l & ls & ->). destruct (N.eqb c sep); eauto.
Qed.

Lemma split_nonempty sep s : split sep s <> [].
Proof. destruct (split_cons sep s) as (l & ls & ->). discriminate. Qed.

Lemma split_no_sep sep s : Forall (fun l => ~ In sep l) (split sep s).
Proof.
  induction s as [|c s IH]; simpl.
  - constructor; [intros [] | constructor].
  - destruct (N.eqb_spec c sep) as [->|Hne].
    + constructor; [intros [] | exact IH].
    + destruct (split sep s) as [|l ls].
      * constructor; [|constructor]. intros [H|[]]. congruence.
      * inversion IH as [|? ? Hl Hls]; subst. constructor; [|exact Hls].
        intros [H|H]; [congruence | exact (Hl H)].
Qed.

Lemma join_split sep s : join [sep] (split sep s) = s.
Proof.
  induction s as [|c s IH]; simpl; [reflexivity|].
  destruct (N.eqb_spec c sep) as [->|Hne].
  - destruct (split_cons sep s) as (l & ls & E). rewrite E in *.
    simpl. f_equal. exact IH.
  - destruct (split sep s) as [|l ls]; [simpl in IH; subst; reflexivity|].
    destruct ls; simpl in *; subst; reflexivity.
Qed.

Lemma split_app_sep sep l r :
  ~ In sep l -> split sep (l ++ sep :: r) = l :: split sep r.
Proof.
  induction l as [|c l IH]; simpl; intros H.
  - rewrite N.eqb_refl. reflexivity.
  - destruct (N.eqb_spec c sep) as [->|Hne]; [tauto|].
    rewrite IH by tauto. reflexivity.
Qed.

Lemma split_no_sep_id sep l : ~ In sep l -> split sep l = [l].
Proof.
  induction l as [|c l IH]; simpl; intros H; [reflexivity|].
  destruct (N.eqb_spec c sep) as [->|Hne]; [tauto|].
  rewrite IH by tauto. reflexivity.
Qed.

Lemma split_join sep ls :
  ls <> [] -> Forall (fun l => ~ In sep l) ls ->
  split sep (join [sep] ls) = ls.
Proof.
  induction ls as [|l ls IH]; [congruence|]. intros _ H.
  inversion H as [|? ? Hl Hls]; subst.
  destruct ls as [|l2 ls].
  - simpl. apply split_no_sep_id, Hl.
  - change (join [sep] (l :: l2 :: ls))
      with (l ++ sep :: join [sep] (l2 :: ls)).
    rewrite split_app_sep by exact Hl. f_equal. apply IH; [discriminate|exact Hls].
Qed.

Lemma line_start_nonneg lines k : 0 <= line_start lines k.
Proof.
  revert lines; induction k as [|k IH]; intros [|l rest]; simpl; try lia.
  pose proof (IH rest). pose proof (len_nonneg l). lia.
Qed.

Lemma len_join lines :
  lines <> [] -> len (join [nl] lines) + 1 = line_start lines (length lines).
Proof.
  induction lines as [|l rest IH]; [congruence|]. intros _.
  destruct rest as [|l2 rest].
  - simpl. lia.
  - change (join [nl] (l :: l2 :: rest)) with (l ++ nl :: join [nl] (l2 :: rest)).
    rewrite len_app, len_cons.
    change (line_start (l :: l2 :: rest) (length (l :: l2 :: rest)))
      with (len l + 1 + line_start (l2 :: rest) (length (l2 :: rest))).
    rewrite <- IH by discriminate. lia.
Qed.

Lemma line_start_le lines k line :
  lines !! k = Some line ->
  line_start lines k + len line <= len (join [nl] lines).
Proof.
  revert k; induction lines as [|l rest IH]; intros k Hk; [discriminate|].
  destruct k as [|k]; simpl in Hk.
  - injection Hk as ->. simpl line_start.
    destruct rest as [|l2 rest]; [simpl; lia|].
    change (join [nl] (line :: l2 :: rest))
      with (line ++ nl :: join [nl] (l2 :: rest)).
    rewrite len_app.
    pose proof (len_nonneg (nl :: join [nl] (l2 :: rest))). lia.
  - destruct rest as [|l2 rest]; [discriminate|].
    change (join [nl] (l :: l2 :: rest)) with (l ++ nl :: join [nl] (l2 :: rest)).
    rewrite len_app, len_cons.
    change (line_start (l :: l2 :: rest) (S k))
      with (len l + 1 + line_start (l2 :: rest) k).
    specialize (IH k Hk). lia.
Qed.

End Lines.

(** ** The line walk *)

Section LineWalk.

Implicit Types (lines : list str) (line : str).

(** A position inside line [k] (its end included) stops the walk at [k],
    with [current_pos] at the start of that line. *)
Lemma line_walk_at lines : forall (k : nat) line c i0 c0,
  lines !! k = Some line -> 0 <= c <= len line ->
  Format.line_walk lines (c0 + line_start lines k + c) i0 c0
  = (Some (i0 + Z.of_nat k), c0 + line_start lines k).
Proof.
  induction lines as [|l rest IH]; intros k line c i0 c0 Hk Hc; [discriminate|].
  destruct k as [|k]; simpl in Hk |- *.
  - injection Hk as ->.
    destruct (Z.geb_spec (c0 + len line) (c0 + 0 + c)); [|lia].
    f_equal; [f_equal|]; lia.
  - pose proof (line_start_nonneg rest k). pose proof (len_nonneg l).
    destruct (Z.geb_spec (c0 + len l) (c0 + (len l + 1 + line_start rest k) + c)); [lia|].
    replace (c0 + (len l + 1 + line_start rest k) + c)
      with ((c0 + len l + 1) + line_start rest k + c) by lia.
    rewrite (IH k line c (i0 + 1) (c0 + len l + 1) Hk Hc).
    f_equal; [f_equal|]; lia.
Qed.

(** Every position of the document lies in some line. *)
Lemma position_in_line lines : forall pos,
  lines <> [] -> 0 <= pos <= len (join [nl] lines) ->
  exists (k : nat) line,
    lines !! k = Some line
    /\ line_start lines k <= pos <= line_start lines k + len line.
Proof.
  induction lines as [|l rest IH]; intros pos Hne Hpos; [congruence|].
  destruct (Z_le_gt_dec pos (len l)) as [Hle|Hgt].
  - exists O, l. simpl. split; [reflexivity|lia].
  - destruct rest as [|l2 rest]; [simpl in Hpos; lia|].
    change (join [nl] (l :: l2 :: rest))
      with (l ++ nl :: join [nl] (l2 :: rest)) in Hpos.
    rewrite len_app, len_cons in Hpos.
    destruct (IH (pos - (len l + 1))) as (k & line & Hk & Hr);
      [discriminate | lia |].
    exists (S k), line. split; [exact Hk|].
    change (line_start (l :: l2 :: rest) (S k))
      with (len l + 1 + line_start (l2 :: rest) k). lia.
Qed.

(** The walk over a document, at an offset within it: the line that holds
    the offset is found. *)
Lemma line_walk_in_range text pos :
  0 <= pos <= len text ->
  exists (k : nat) line,
    split nl text !! k = Some line
    /\ line_start (split nl text) k <= pos <= line_start (split nl text) k + len line
    /\ Format.line_walk (split nl text) pos 0 0
       = (Some (Z.of_nat k), line_start (split nl text) k).
Proof.
  intros Hpos.
  destruct (position_in_line (split nl text) pos) as (k & line & Hk & Hr).
  - apply split_nonempty.
  - rewrite join_split. exact Hpos.
  - exists k, line. split; [exact Hk|]. split; [exact Hr|].
    pose proof (line_walk_at (split nl text) k line
                  (pos - line_start (split nl text) k) 0 0 Hk) as H.
    replace (0 + line_start (split nl text) k + (pos - line_start (split nl text) k))
      with pos in H by lia.
    rewrite H by lia. f_equal.
Qed.

(** Past the end of the document the walk runs to its end. *)
Lemma line_walk_past lines : forall pos i0 c0,
  c0 + line_start lines (length lines) <= pos ->
  Format.line_walk lines pos i0 c0
  = (None, c0 + line_start lines (length lines)).
Proof.
  induction lines as [|l rest IH]; intros pos i0 c0 H; simpl in *.
  - f_equal. lia.
  - pose proof (line_start_nonneg rest (length rest)).
    destruct (Z.geb_spec (c0 + len l) pos); [lia|].
    rewrite IH by lia. f_equal. lia.
Qed.

End LineWalk.

(** ** Heading levels *)

(** C9. For every document and every offset, [heading] called with a level
    outside 1..6 returns the text and the offset it was given, and does not
    raise. *)
Theorem heading_invalid_level_is_identity (text : str) (pos level : Z) :
  ~ (1 <= level <= 6) -> heading text pos level = Some (text, pos).
Proof.
  intros H. unfold heading.
  destruct (Z.leb_spec 1 level), (Z.leb_spec level 6); simpl; try reflexivity.
  lia.
Qed.

Lemma heading_invalid_level_is_identity_witness :
  ~ (1 <= 7 <= 6) /\ heading (lit "# a") 2 7 = Some (lit "# a", 2).
Proof.
  split; [lia|]. apply (heading_invalid_level_is_identity (lit "# a") 2 7). lia.
Defined.

(** ** Code blocks *)

(** C6. At an offset within the text, [codeBlock] looks at the start of the
    line: when the offset is 0 or the character before it is a newline, the
    block [```\n\n```\n] is inserted at the offset and the new offset is the
    old one plus 4; otherwise the block [\n```\n\n```\n] is inserted and the
    new offset is the old one plus 5. On the empty text at offset 0 the
    result is the text [```\n\n```\n] and the offset 4. *)
Theorem codeBlock_line_start (text : str) (pos : Z) :
  0 <= pos <= len text ->
  (pos = 0 \/ text !! Z.to_nat (pos - 1) = Some nl ->
   codeBlock text pos
   = Some (take (Z.to_nat pos) text
             ++ (lit "```" ++ [nl; nl] ++ lit "```" ++ [nl])
             ++ drop (Z.to_nat pos) text, pos + 4))
  /\ (~ (pos = 0 \/ text !! Z.to_nat (pos - 1) = Some nl) ->
      codeBlock text pos
      = Some (take (Z.to_nat pos) text
                ++ ([nl] ++ lit "```" ++ [nl; nl] ++ lit "```" ++ [nl])
                ++ drop (Z.to_nat pos) text, pos + 5))
  /\ codeBlock [] 0 = Some (lit "```" ++ [nl; nl] ++ lit "```" ++ [nl], 4).
Proof.
  intros Hpos. unfold codeBlock.
  destruct (line_walk (split nl text) pos 0 0) as [found current_pos].
  rewrite slice_to_take, slice_from_drop by lia.
  split; [|split; [|reflexivity]].
  - intros [->|Hnl]; [reflexivity|].
    destruct (Z.gtb_spec pos 0) as [Hgt|Hle]; [|reflexivity].
    replace (pos - 1) with (Z.of_nat (Z.to_nat (pos - 1))) at 1 by lia.
    rewrite index_lookup by (unfold len in Hpos; lia).
    rewrite Hnl. reflexivity.
  - intros Hnot.
    destruct (Z.gtb_spec pos 0) as [Hgt|Hle]; [|exfalso; apply Hnot; left; lia].
    replace (pos - 1) with (Z.of_nat (Z.to_nat (pos - 1))) at 1 by lia.
    rewrite index_lookup by (unfold len in Hpos; lia).
    destruct (lookup_lt_is_Some_2 text (Z.to_nat (pos - 1))) as [c Hc];
      [unfold len in Hpos; lia|].
    rewrite Hc. simpl.
    destruct (N.eqb_spec c nl) as [->|Hne]; [exfalso; apply Hnot; right; exact Hc|].
    reflexivity.
Qed.

Lemma codeBlock_line_start_witness :
  0 <= 1 <= len (lit "ab")
  /\ codeBlock (lit "ab") 1
     = Some (lit "a" ++ ([nl] ++ lit "```" ++ [nl; nl] ++ lit "```" ++ [nl])
               ++ lit "b", 6).
Proof.
  assert (H : 0 <= 1 <= len (lit "ab")) by (vm_compute; split; discriminate).
  split; [exact H|].
  apply (proj1 (proj2 (codeBlock_line_start (lit "ab") 1 H))).
  intros [E|E]; discriminate.
Defined.

(** ** The delimiter toggle *)

Section WrapLoop.

Variables (text : str) (left search_pos wlen : Z) (matches : list Match).

Lemma range_step_even stop :
  Forall (fun i => exists k : nat, i = Z.of_nat (2 * k)) (range_step 0 stop 2).
Proof.
  unfold range_step. apply List.Forall_forall. intros i Hi.
  apply in_map_iff in Hi. destruct Hi as (k & <- & _). exists k. lia.
Qed.

Lemma wrap_loop_no_pair idx :
  Forall (fun i => exists k : nat, i = Z.of_nat (2 * k)) idx ->
  (forall (k : nat) m1 m2,
      matches !! (2 * k)%nat = Some m1 ->
      matches !! (2 * k + 1)%nat = Some m2 ->
      ~ (m_end m1 <= search_pos <= m_start m2)) ->
  wrap_loop text left search_pos wlen matches idx = Some None.
Proof.
  intros Hidx Hno. induction Hidx as [|i idx (k & ->) _ IH]; [reflexivity|].
  remember (2 * k)%nat as n eqn:En. cbn [wrap_loop].
  destruct (Z.ltb_spec (Z.of_nat n + 1) (len matches)) as [Hlt|_];
    [|exact IH].
  unfold len in Hlt.
  destruct (lookup_lt_is_Some_2 matches n) as [m1 H1]; [lia|].
  destruct (lookup_lt_is_Some_2 matches (n + 1)) as [m2 H2]; [lia|].
  rewrite index_lookup by lia. rewrite H1. simpl.
  replace (Z.of_nat n + 1) with (Z.of_nat (n + 1)) by lia.
  rewrite index_lookup by lia. rewrite H2. simpl.
  destruct (Z.leb_spec (m_end m1) search_pos),
           (Z.leb_spec search_pos (m_start m2)); simpl; try exact IH.
  exfalso. subst n. apply (Hno k m1 m2 H1 H2). lia.
Qed.

End WrapLoop.

(** C5. For every text and offset within it such that no enclosing pair of
    the delimiter exists in the 20-character window around the offset,
    [_wrap] puts two consecutive copies of the delimiter at the offset and
    returns the offset plus the length of one copy. In particular [bold] of
    "the quick brown fox" at 9 returns "the quick**** brown fox" and 11. *)
Theorem wrap_inserts_empty_span :
  (forall (text : str) (pos : Z) (wrapper : str),
      In wrapper delimiters ->
      0 <= pos <= len text ->
      ~ enclosing_pair wrapper text pos ->
      _wrap text pos wrapper
      = Some (take (Z.to_nat pos) text ++ wrapper ++ wrapper
                ++ drop (Z.to_nat pos) text,
              pos + len wrapper))
  /\ bold (lit "the quick brown fox") 9
     = Some (lit "the quick**** brown fox", 11).
Proof.
  split; [|reflexivity].
  intros text pos wrapper _ Hpos Hno. unfold _wrap.
  rewrite wrap_loop_no_pair.
  - simpl. rewrite slice_to_take, slice_from_drop by lia. reflexivity.
  - apply range_step_even.
  - intros k m1 m2 H1 H2 H. apply Hno. exists k, m1, m2. auto.
Qed.

Lemma wrap_inserts_empty_span_witness :
  italic (lit "ab") 1 = Some (lit "a**b", 2).
Proof.
  apply (proj1 wrap_inserts_empty_span (lit "ab") 1 (lit "*")).
  - right; left; reflexivity.
  - vm_compute; split; discriminate.
  - intros (k & m1 & m2 & H1 & _). destruct k; discriminate H1.
Defined.

(** ** Offsets and positions *)

Section Cursor.

Implicit Types (lines : list str) (line : str).

Lemma line_start_S lines : forall (k : nat) line,
  lines !! k = Some line ->
  line_start lines (S k) = line_start lines k + len line + 1.
Proof.
  induction lines as [|l rest IH]; intros k line Hk; [discriminate|].
  destruct k as [|k]; simpl in Hk.
  - injection Hk as ->. destruct rest; simpl; lia.
  - change (line_start (l :: rest) (S (S k)))
      with (len l + 1 + line_start rest (S k)).
    change (line_start (l :: rest) (S k))
      with (len l + 1 + line_start rest k).
    rewrite (IH k line Hk). lia.
Qed.

Lemma sum_loop_seq lines : forall (n a : nat) p,
  (a + n <= length lines)%nat ->
  sum_loop lines (map (fun k => 0 + Z.of_nat k * 1) (seq a n)) p
  = Some (p + line_start lines (a + n) - line_start lines a).
Proof.
  induction n as [|n IH]; intros a p Hn.
  - simpl. rewrite Nat.add_0_r. f_equal. lia.
  - cbn [seq map sum_loop].
    destruct (Z.ltb_spec (0 + Z.of_nat a * 1) (len lines)) as [_|Hge];
      [|unfold len in Hge; lia].
    replace (0 + Z.of_nat a * 1) with (Z.of_nat a) by lia.
    rewrite index_lookup by lia.
    destruct (lookup_lt_is_Some_2 lines a) as [l Hl]; [lia|].
    rewrite Hl. cbn [mbind option_bind].
    rewrite IH by lia. rewrite (line_start_S lines a l Hl).
    replace (S a + n)%nat with (a + S n)%nat by lia. f_equal. lia.
Qed.

Lemma sum_loop_range lines row :
  0 <= row <= len lines ->
  sum_loop lines (range row) 0 = Some (line_start lines (Z.to_nat row)).
Proof.
  intros H. unfold range, range_step.
  replace ((row - 0 + 1 - 1) / 1) with row by (rewrite Z.div_1_r; lia).
  rewrite sum_loop_seq by (unfold len in H; lia).
  replace (line_start lines 0) with 0 by (destruct lines; reflexivity).
  simpl. f_equal. lia.
Qed.

End Cursor.

(** C2. For every document and every position [(row, col)] with [row] the
    index of a line of the document and [0 <= col], the offset that
    [_get_cursor_position] computes is turned back by [_set_cursor_position]
    into the position [(row, min(col, len(line)))], where [line] is line
    [row] of the document split at newlines; a column equal to the length of
    the line is the end of that line. *)
Theorem cursor_position_roundtrip (self : Editor) (row col : Z) (line : str) :
  cursor_location self = (row, col) ->
  0 <= row -> 0 <= col ->
  split nl (text self) !! Z.to_nat row = Some line ->
  exists pos self',
    _get_cursor_position self = Some pos
    /\ _set_cursor_position self pos = Some self'
    /\ cursor_location self' = (row, Z.min col (len line))
    /\ text self' = text self.
Proof.
  intros Hloc Hrow Hcol Hline.
  pose proof (lookup_lt_Some _ _ _ Hline) as Hlt.
  exists (line_start (split nl (text self)) (Z.to_nat row) + Z.min col (len line)).
  eexists. unfold _get_cursor_position, _set_cursor_position. rewrite Hloc.
  rewrite sum_loop_range by (unfold len; lia). cbn [mbind option_bind].
  destruct (Z.ltb_spec row (len (split nl (text self)))) as [_|Hge];
    [|unfold len in Hge; lia].
  rewrite index_in_range by (unfold len; lia).
  rewrite Hline. cbn [mbind option_bind].
  split; [reflexivity|].
  pose proof (len_nonneg line).
  pose proof (line_walk_at (split nl (text self)) (Z.to_nat row) line
                (Z.min col (len line)) 0 0 Hline) as Hw.
  rewrite !Z.add_0_l in Hw. rewrite Hw by lia.
  split; [reflexivity|]. simpl. split; [|reflexivity].
  f_equal; lia.
Qed.

Lemma cursor_position_roundtrip_witness :
  exists pos self',
    _get_cursor_position {| text := lit "ab" ++ [nl] ++ lit "c"; cursor_location := (1, 5) |}
    = Some pos
    /\ _set_cursor_position
         {| text := lit "ab" ++ [nl] ++ lit "c"; cursor_location := (1, 5) |} pos
       = Some self'
    /\ cursor_location self' = (1, Z.min 5 (len (lit "c")))
    /\ text self' = lit "ab" ++ [nl] ++ lit "c".
Proof.
  apply (cursor_position_roundtrip
           {| text := lit "ab" ++ [nl] ++ lit "c"; cursor_location := (1, 5) |}
           1 5 (lit "c")).
  - reflexivity.
  - lia.
  - lia.
  - reflexivity.
Defined.

(** ** Line prefixes: heading markers, indentation, list markers *)

Section Prefixes.

Implicit Types (s p r line : str).

Lemma hashes_le most s : (hashes most s <= most)%nat.
Proof.
  revert s; induction most as [|most IH]; intros [|c s]; simpl; try lia.
  destruct (N.eqb c hash); [specialize (IH s)|]; lia.
Qed.

Lemma hashes_le_length most s : (hashes most s <= length s)%nat.
Proof.
  revert s; induction most as [|most IH]; intros [|c s]; simpl; try lia.
  destruct (N.eqb c hash); [specialize (IH s)|]; lia.
Qed.

Lemma hashes_take most s : take (hashes most s) s = replicate (hashes most s) hash.
Proof.
  revert s; induction most as [|most IH]; intros [|c s]; simpl; try reflexivity.
  destruct (N.eqb_spec c hash) as [->|]; [|reflexivity].
  simpl. f_equal. apply IH.
Qed.

Lemma hashes_maximal most s :
  hashes most s = most \/ ~ starts_with_hash (drop (hashes most s) s).
Proof.
  revert s; induction most as [|most IH]; intros s; [left; destruct s; reflexivity|].
  destruct s as [|c s]; simpl.
  - right. intros (s' & E). discriminate.
  - destruct (N.eqb_spec c hash) as [->|Hne].
    + simpl. destruct (IH s) as [->|H]; [left; reflexivity|right; exact H].
    + right. simpl. intros (s' & E). congruence.
Qed.

Lemma hashes_zero s : hashes 6 s = O -> ~ starts_with_hash s.
Proof.
  intros H (s' & ->). simpl in H. discriminate.
Qed.

Lemma spaces_le_length s : (spaces s <= length s)%nat.
Proof.
  induction s as [|c s IH]; simpl; [lia|]. destruct (isspace c); lia.
Qed.

Lemma spaces_take s : Forall (fun c => isspace c = true) (take (spaces s) s).
Proof.
  induction s as [|c s IH]; simpl; [constructor|].
  destruct (isspace c) eqn:E; simpl; constructor; assumption.
Qed.

Lemma spaces_drop s : ~ starts_with_space (drop (spaces s) s).
Proof.
  induction s as [|c s IH]; simpl.
  - intros (c & s' & E & _). discriminate.
  - destruct (isspace c) eqn:E; simpl; [exact IH|].
    intros (c' & s' & E' & Hc). congruence.
Qed.

Lemma lstrip_drop s : lstrip s = drop (spaces s) s.
Proof.
  induction s as [|c s IH]; simpl; [reflexivity|].
  destruct (isspace c); [exact IH|reflexivity].
Qed.

Lemma startswith_spec s p : startswith s p = true <-> exists r, s = p ++ r.
Proof.
  revert s; induction p as [|a p IH]; intros s; simpl.
  - split; [eauto|intros _; destruct s; reflexivity].
  - destruct s as [|c s].
    + split; [discriminate|]. intros (r & E). discriminate.
    + cbn [startswith]. rewrite andb_true_iff, N.eqb_eq, IH. split.
      * intros (-> & r & ->). eauto.
      * intros (r & E). injection E as -> ->. eauto.
Qed.

Lemma slice_from_nat s (n : nat) :
  (n <= length s)%nat -> slice_from s (Z.of_nat n) = drop n s.
Proof.
  intros H. rewrite slice_from_drop by (unfold len; lia).
  rewrite Nat2Z.id. reflexivity.
Qed.

(** What [heading] writes is [level] times [#], one space, and the line
    without its marker. *)
Lemma heading_line_spec level line :
  exists rest,
    marker_stripped line rest
    /\ heading_line level line = times hash level ++ [space] ++ rest.
Proof.
  unfold heading_line, match_heading.
  destruct (hashes 6 line) as [|k'] eqn:Ek.
  - exists line. split; [|reflexivity].
    apply no_marker; [apply hashes_zero, Ek|reflexivity].
  - set (k := S k') in *. cbn [m_end].
    pose proof (hashes_le 6 line) as Hle6.
    pose proof (hashes_le_length 6 line) as Hlen.
    pose proof (spaces_le_length (drop k line)) as Hsp.
    rewrite length_drop in Hsp. rewrite Ek in Hle6, Hlen.
    exists (drop (spaces (drop k line)) (drop k line)). split.
    + apply marker with (k := k) (ws := take (spaces (drop k line)) (drop k line)).
      * subst k; lia.
      * rewrite take_drop. rewrite <- Ek at 1. rewrite <- hashes_take.
        rewrite Ek. symmetry. apply take_drop.
      * apply spaces_take.
      * apply spaces_drop.
      * destruct (hashes_maximal 6 line) as [H|H]; rewrite Ek in H.
        -- left. exact H.
        -- destruct (spaces (drop k line)) eqn:Es.
           ++ right; right. exact H.
           ++ right; left. destruct (drop k line); [discriminate Es|].
              discriminate.
    + rewrite slice_from_nat by lia. rewrite drop_drop. reflexivity.
Qed.

Lemma indent_take line :
  slice_to line (len line - len (lstrip line)) = take (spaces line) line.
Proof.
  pose proof (spaces_le_length line) as H.
  rewrite lstrip_drop. unfold len. rewrite length_drop.
  rewrite slice_to_take by (unfold len; lia). f_equal. lia.
Qed.

(** What [listItem] writes: the indentation is kept, and the marker [- ]
    after it is taken away when it is there and put when it is not. *)
Lemma list_line_spec line :
  exists indent rest,
    line = indent ++ rest
    /\ Forall (fun c => isspace c = true) indent
    /\ ~ starts_with_space rest
    /\ ((exists r, rest = lit "- " ++ r /\ list_line line = (indent ++ r, -2))
        \/ ((~ exists r, rest = lit "- " ++ r)
            /\ list_line line = (indent ++ lit "- " ++ rest, 2))).
Proof.
  exists (take (spaces line) line), (drop (spaces line) line).
  split; [symmetry; apply take_drop|].
  split; [apply spaces_take|]. split; [apply spaces_drop|].
  unfold list_line. rewrite indent_take, lstrip_drop.
  destruct (startswith (drop (spaces line) line) (lit "- ")) eqn:E.
  - left. apply startswith_spec in E. destruct E as (r & E).
    exists r. split; [exact E|]. rewrite E.
    change 2 with (len (lit "- ")). rewrite slice_from_app. reflexivity.
  - right. split; [|reflexivity].
    intros H. apply startswith_spec in H. congruence.
Qed.

End Prefixes.

(** ** Headings and list items, at an offset inside line [k] *)

Section TargetLine.

Variables (text : str) (pos : Z) (k : nat) (line : str).
Hypothesis Hline : split nl text !! k = Some line.
Hypothesis Hpos :
  line_start (split nl text) k <= pos <= line_start (split nl text) k + len line.

Lemma target_line_walk :
  line_walk (split nl text) pos 0 0
  = (Some (Z.of_nat k), line_start (split nl text) k).
Proof using Hline Hpos.
  pose proof (line_walk_at (split nl text) k line
                (pos - line_start (split nl text) k) 0 0 Hline) as H.
  replace (0 + line_start (split nl text) k + (pos - line_start (split nl text) k))
    with pos in H by lia.
  rewrite H by lia. reflexivity.
Qed.

Lemma heading_at level :
  1 <= level <= 6 ->
  heading text pos level
  = Some (join [nl] (<[k := heading_line level line]> (split nl text)),
          line_start (split nl text) k
          + Z.min (pos - line_start (split nl text) k
                   + (len (heading_line level line) - len line))
                  (len (heading_line level line))).
Proof using Hline Hpos.
  intros Hlevel. unfold heading.
  destruct (Z.leb_spec 1 level), (Z.leb_spec level 6); try lia.
  cbn [andb negb]. rewrite target_line_walk. cbn [from_option id].
  pose proof (lookup_lt_Some _ _ _ Hline) as Hlt.
  rewrite index_lookup, Hline by exact Hlt. cbn [mbind option_bind].
  rewrite setitem_insert by exact Hlt. reflexivity.
Qed.

Lemma listItem_at :
  listItem text pos
  = Some (join [nl] (<[k := fst (list_line line)]> (split nl text)),
          pos + snd (list_line line)).
Proof using Hline Hpos.
  unfold listItem. rewrite target_line_walk. cbn [from_option id].
  pose proof (lookup_lt_Some _ _ _ Hline) as Hlt.
  rewrite index_lookup, Hline by exact Hlt. cbn [mbind option_bind].
  unfold list_line.
  destruct (startswith (lstrip line) (lit "- "));
    rewrite setitem_insert by exact Hlt; reflexivity.
Qed.

End TargetLine.

(** C7. For every document, every offset within it and every level from 1 to
    6, [heading] rewrites the line that holds the offset: the leading run of
    [#] (at most six) and the whitespace after it are removed, and [level]
    times [#] and one space are put in front of what remains of the line.
    With level 3, a line ["##### " ++ r] becomes ["### "] followed by [r]
    without its leading whitespace: nothing of the old marker is left. *)
Theorem heading_replaces_marker (text : str) (pos level : Z) :
  0 <= pos <= len text ->
  1 <= level <= 6 ->
  exists (k : nat) line rest new_pos,
    split nl text !! k = Some line
    /\ line_start (split nl text) k <= pos <= line_start (split nl text) k + len line
    /\ marker_stripped line rest
    /\ heading text pos level
       = Some (join [nl] (<[k := replicate (Z.to_nat level) hash ++ [space] ++ rest]>
                            (split nl text)),
               new_pos)
    /\ (level = 3 -> forall r, line = lit "##### " ++ r ->
        replicate (Z.to_nat level) hash ++ [space] ++ rest = lit "### " ++ lstrip r).
Proof.
  intros Hpos Hlevel.
  destruct (line_walk_in_range text pos Hpos) as (k & line & Hk & Hr & _).
  destruct (heading_line_spec level line) as (rest & Hrest & Hnew).
  exists k, line, rest. eexists.
  split; [exact Hk|]. split; [exact Hr|]. split; [exact Hrest|]. split.
  - rewrite (heading_at text pos k line Hk Hr level Hlevel). rewrite Hnew.
    reflexivity.
  - intros -> r ->. change (replicate (Z.to_nat 3) hash) with (times hash 3).
    rewrite <- Hnew. unfold heading_line, match_heading.
    change (hashes 6 (lit "##### " ++ r)) with 5%nat. cbn [m_end].
    rewrite slice_from_nat.
    + change (drop 5 (lit "##### " ++ r)) with (space :: r).
      change (spaces (space :: r)) with (S (spaces r)).
      replace (5 + S (spaces r))%nat with (6 + spaces r)%nat by lia.
      rewrite <- drop_drop. change (drop 6 (lit "##### " ++ r)) with r.
      rewrite lstrip_drop. reflexivity.
    + change (drop 5 (lit "##### " ++ r)) with (space :: r).
      change (spaces (space :: r)) with (S (spaces r)).
      pose proof (spaces_le_length r). rewrite length_app.
      change (length (lit "##### ")) with 6%nat. lia.
Qed.

Lemma heading_replaces_marker_witness :
  exists (k : nat) line rest new_pos,
    split nl (lit "##### x") !! k = Some line
    /\ line_start (split nl (lit "##### x")) k <= 2
       <= line_start (split nl (lit "##### x")) k + len line
    /\ marker_stripped line rest
    /\ heading (lit "##### x") 2 3
       = Some (join [nl] (<[k := replicate (Z.to_nat 3) hash ++ [space] ++ rest]>
                            (split nl (lit "##### x"))),
               new_pos)
    /\ (3 = 3 -> forall r, line = lit "##### " ++ r ->
        replicate (Z.to_nat 3) hash ++ [space] ++ rest = lit "### " ++ lstrip r).
Proof.
  apply (heading_replaces_marker (lit "##### x") 2 3).
  - vm_compute; split; discriminate.
  - lia.
Defined.

(** C8. [listItem] toggles the text of the line that holds the offset: when
    the line without its leading whitespace starts with [- ], that marker is
    removed, the leading whitespace stays, and the offset returned is the
    offset given minus 2; otherwise [- ] is put right after the leading
    whitespace and the offset returned is the offset given plus 2. The line
    "  hello" becomes "  - hello", and that one becomes "  hello" again. *)
Theorem listItem_toggles_marker :
  (forall (text : str) (pos : Z),
      0 <= pos <= len text ->
      exists (k : nat) indent rest,
        split nl text !! k = Some (indent ++ rest)
        /\ line_start (split nl text) k <= pos
           <= line_start (split nl text) k + len (indent ++ rest)
        /\ Forall (fun c => isspace c = true) indent
        /\ ~ starts_with_space rest
        /\ ((exists r,
                rest = lit "- " ++ r
                /\ listItem text pos
                   = Some (join [nl] (<[k := indent ++ r]> (split nl text)), pos - 2))
            \/ ((~ exists r, rest = lit "- " ++ r)
                /\ listItem text pos
                   = Some (join [nl] (<[k := indent ++ lit "- " ++ rest]> (split nl text)),
                           pos + 2))))
  /\ (forall pos, listItem (lit "  hello") pos = Some (lit "  - hello", pos + 2))
  /\ (forall pos, listItem (lit "  - hello") pos = Some (lit "  hello", pos - 2)).
Proof.
  split; [|split].
  - intros text pos Hpos.
    destruct (line_walk_in_range text pos Hpos) as (k & line & Hk & Hr & _).
    destruct (list_line_spec line) as (indent & rest & El & Hind & Hrest & Hcase).
    exists k, indent, rest. rewrite <- El.
    split; [exact Hk|]. split; [exact Hr|]. split; [exact Hind|].
    split; [exact Hrest|].
    rewrite (listItem_at text pos k line Hk Hr).
    destruct Hcase as [(r & Er & ->)|(Hno & ->)].
    + left. exists r. split; [exact Er|]. reflexivity.
    + right. split; [exact Hno|]. reflexivity.
  - intros pos. unfold listItem.
    change (split nl (lit "  hello")) with [lit "  hello"]. cbn [line_walk].
    destruct (0 + len (lit "  hello") >=? pos); vm_compute; reflexivity.
  - intros pos. unfold listItem.
    change (split nl (lit "  - hello")) with [lit "  - hello"]. cbn [line_walk].
    destruct (0 + len (lit "  - hello") >=? pos); vm_compute; reflexivity.
Qed.

Lemma listItem_toggles_marker_witness :
  exists (k : nat) indent rest,
    split nl (lit "a" ++ [nl] ++ lit " - b") !! k = Some (indent ++ rest)
    /\ line_start (split nl (lit "a" ++ [nl] ++ lit " - b")) k <= 4
       <= line_start (split nl (lit "a" ++ [nl] ++ lit " - b")) k + len (indent ++ rest)
    /\ Forall (fun c => isspace c = true) indent
    /\ ~ starts_with_space rest
    /\ ((exists r,
            rest = lit "- " ++ r
            /\ listItem (lit "a" ++ [nl] ++ lit " - b") 4
               = Some (join [nl] (<[k := indent ++ r]>
                                    (split nl (lit "a" ++ [nl] ++ lit " - b"))), 4 - 2))
        \/ ((~ exists r, rest = lit "- " ++ r)
            /\ listItem (lit "a" ++ [nl] ++ lit " - b") 4
               = Some (join [nl] (<[k := indent ++ lit "- " ++ rest]>
                                    (split nl (lit "a" ++ [nl] ++ lit " - b"))),
                       4 + 2))).
Proof.
  apply (proj1 listItem_toggles_marker (lit "a" ++ [nl] ++ lit " - b") 4).
  vm_compute; split; discriminate.
Defined.

(** ** Only the target line changes *)

Section Frame.

Implicit Types (line rest : str) (lines : list str).

Lemma marker_stripped_suffix line rest :
  marker_stripped line rest -> exists pre, line = pre ++ rest.
Proof.
  intros [_ ->|k ws _ -> _ _ _].
  - exists []. reflexivity.
  - exists (replicate k hash ++ ws). rewrite <- app_assoc. reflexivity.
Qed.

Lemma heading_line_no_newline level line :
  ~ In nl line -> ~ In nl (heading_line level line).
Proof.
  intros Hline Hin.
  destruct (heading_line_spec level line) as (rest & Hrest & E).
  rewrite E in Hin. destruct (marker_stripped_suffix _ _ Hrest) as (pre & ->).
  apply in_app_or in Hin. destruct Hin as [Hin|Hin].
  - unfold times in Hin. apply list_elem_of_In, elem_of_replicate in Hin.
    destruct Hin as [Hin _]. discriminate.
  - destruct Hin as [Hin|Hin]; [discriminate|].
    apply Hline, in_or_app. right. exact Hin.
Qed.

Lemma list_line_no_newline line :
  ~ In nl line -> ~ In nl (fst (list_line line)).
Proof.
  intros Hline Hin.
  destruct (list_line_spec line) as (indent & rest & -> & _ & _ & Hcase).
  destruct Hcase as [(r & -> & E)|(_ & E)]; rewrite E in Hin; simpl in Hin;
    apply Hline; rewrite !in_app_iff in *; simpl in *.
  - destruct Hin as [Hin|Hin]; auto.
  - destruct Hin as [Hin|[Hin|[Hin|Hin]]]; auto; discriminate.
Qed.

(** Writing a line without newline over line [k] and joining gives a
    document whose lines are the old ones, but for line [k]. *)
Lemma split_join_insert text (k : nat) new_line :
  ~ In nl new_line ->
  split nl (join [nl] (<[k := new_line]> (split nl text)))
  = <[k := new_line]> (split nl text).
Proof.
  intros Hnew. apply split_join.
  - intros E. apply (f_equal length) in E. rewrite length_insert in E.
    destruct (split_cons nl text) as (l & ls & E'). rewrite E' in E.
    discriminate.
  - apply Forall_insert; [apply split_no_sep|exact Hnew].
Qed.

End Frame.

(** C10. For every document, every offset within it and every level from 1
    to 6, [heading] and [listItem] change at most the line that holds the
    offset: the document returned has as many lines (split at newlines) as
    the document given, and every line but that one is the same. *)
Theorem heading_listItem_change_one_line (text : str) (pos level : Z) :
  0 <= pos <= len text ->
  1 <= level <= 6 ->
  exists (k : nat) line,
    split nl text !! k = Some line
    /\ line_start (split nl text) k <= pos <= line_start (split nl text) k + len line
    /\ (exists new_text new_pos,
           heading text pos level = Some (new_text, new_pos)
           /\ length (split nl new_text) = length (split nl text)
           /\ forall j : nat, j <> k -> split nl new_text !! j = split nl text !! j)
    /\ (exists new_text new_pos,
           listItem text pos = Some (new_text, new_pos)
           /\ length (split nl new_text) = length (split nl text)
           /\ forall j : nat, j <> k -> split nl new_text !! j = split nl text !! j).
Proof.
  intros Hpos Hlevel.
  destruct (line_walk_in_range text pos Hpos) as (k & line & Hk & Hr & _).
  assert (Hline : ~ In nl line).
  { pose proof (split_no_sep nl text) as H.
    rewrite List.Forall_forall in H. apply H.
    apply list_elem_of_In, list_elem_of_lookup. eauto. }
  exists k, line. split; [exact Hk|]. split; [exact Hr|]. split.
  - eexists _, _. split; [apply (heading_at text pos k line Hk Hr level Hlevel)|].
    rewrite split_join_insert by (apply heading_line_no_newline, Hline).
    split; [apply length_insert|].
    intros j Hj. apply list_lookup_insert_ne. congruence.
  - eexists _, _. split; [apply (listItem_at text pos k line Hk Hr)|].
    rewrite split_join_insert by (apply list_line_no_newline, Hline).
    split; [apply length_insert|].
    intros j Hj. apply list_lookup_insert_ne. congruence.
Qed.

Lemma heading_listItem_change_one_line_witness :
  exists (k : nat) line,
    split nl (lit "a" ++ [nl] ++ lit "## b") !! k = Some line
    /\ line_start (split nl (lit "a" ++ [nl] ++ lit "## b")) k <= 3
       <= line_start (split nl (lit "a" ++ [nl] ++ lit "## b")) k + len line
    /\ (exists new_text new_pos,
           heading (lit "a" ++ [nl] ++ lit "## b") 3 1 = Some (new_text, new_pos)
           /\ length (split nl new_text)
              = length (split nl (lit "a" ++ [nl] ++ lit "## b"))
           /\ forall j : nat, j <> k ->
                split nl new_text !! j
                = split nl (lit "a" ++ [nl] ++ lit "## b") !! j)
    /\ (exists new_text new_pos,
           listItem (lit "a" ++ [nl] ++ lit "## b") 3 = Some (new_text, new_pos)
           /\ length (split nl new_text)
              = length (split nl (lit "a" ++ [nl] ++ lit "## b"))
           /\ forall j : nat, j <> k ->
                split nl new_text !! j
                = split nl (lit "a" ++ [nl] ++ lit "## b") !! j).
Proof.
  apply (heading_listItem_change_one_line (lit "a" ++ [nl] ++ lit "## b") 3 1).
  - vm_compute; split; discriminate.
  - lia.
Defined.

(** ** Occurrences of a delimiter *)

Section Occurrences.

Implicit Types (w s a b u : str).

Lemma no_occurrence_tail w c s : no_occurrence w (c :: s) -> no_occurrence w s.
Proof. intros H a b E. apply (H (c :: a) b). rewrite E. reflexivity. Qed.

Lemma no_occurrence_middle w x s y :
  no_occurrence w (x ++ s ++ y) -> no_occurrence w s.
Proof.
  intros H a b E. apply (H (x ++ a) (b ++ y)). rewrite E.
  rewrite <- !app_assoc. reflexivity.
Qed.

Lemma no_occurrence_not_in c s : no_occurrence [c] s -> ~ In c s.
Proof.
  intros H Hin. apply in_split in Hin. destruct Hin as (a & b & E).
  exact (H a b E).
Qed.

(** Without an occurrence the scan finds nothing. *)
Lemma finditer_from_none w s : forall i,
  no_occurrence w s -> finditer_from w s i 0 = [].
Proof.
  induction s as [|c s IH]; intros i H; [reflexivity|].
  cbn [finditer_from].
  destruct (startswith (c :: s) w) eqn:E.
  - apply startswith_spec in E. destruct E as (r & E).
    exfalso. exact (H [] r E).
  - apply IH. exact (no_occurrence_tail w c s H).
Qed.

(** The characters of an occurrence that was found are passed. *)
Lemma finditer_from_pass w u s : forall i,
  finditer_from w (u ++ s) i (length u) = finditer_from w s (i + len u) 0.
Proof.
  induction u as [|c u IH]; intros i.
  - simpl. rewrite len_nil, Z.add_0_r. destruct s; reflexivity.
  - cbn [app length finditer_from]. rewrite IH, len_cons. f_equal. lia.
Qed.

(** An occurrence at the head of the string is found. *)
Lemma finditer_from_hit w s i :
  w <> [] ->
  finditer_from w (w ++ s) i 0
  = {| m_start := i; m_end := i + len w |} :: finditer_from w s (i + len w) 0.
Proof.
  intros Hw. destruct w as [|c w]; [congruence|].
  cbn [app finditer_from].
  assert (E : startswith (c :: w ++ s) (c :: w) = true)
    by (apply startswith_spec; eexists; reflexivity).
  rewrite E. f_equal. cbn [length Nat.pred].
  rewrite finditer_from_pass, len_cons. f_equal. lia.
Qed.

(** A prefix without the one-character delimiter is scanned without a match. *)
Lemma finditer_from_prefix_single c a s : forall i,
  ~ In c a ->
  finditer_from [c] (a ++ s) i 0 = finditer_from [c] s (i + len a) 0.
Proof.
  induction a as [|x a IH]; intros i H.
  - rewrite len_nil, Z.add_0_r. reflexivity.
  - cbn [app finditer_from startswith].
    destruct (N.eqb_spec x c) as [->|_]; [exfalso; apply H; left; reflexivity|].
    cbn [andb]. rewrite IH by (intros Hin; apply H; right; exact Hin).
    rewrite len_cons. f_equal. lia.
Qed.

(** The same for a delimiter of two equal characters, in front of that
    character: the prefix must also not end with it. *)
Lemma finditer_from_prefix_double c a s : forall i,
  no_occurrence [c; c] a ->
  (forall a', a <> a' ++ [c]) ->
  finditer_from [c; c] (a ++ c :: s) i 0
  = finditer_from [c; c] (c :: s) (i + len a) 0.
Proof.
  induction a as [|x a IH]; intros i Hno Hend.
  - rewrite len_nil, Z.add_0_r. reflexivity.
  - rewrite len_cons. replace (i + (1 + len a)) with (i + 1 + len a) by lia.
    rewrite <- IH;
      [|exact (no_occurrence_tail _ _ _ Hno)
       |intros a' Ea; apply (Hend (x :: a')); rewrite Ea; reflexivity].
    remember (finditer_from [c; c] (a ++ c :: s) (i + 1) 0) as found.
    cbn [app finditer_from]. subst found.
    assert (E : startswith (x :: a ++ c :: s) [c; c] = false).
    { destruct (startswith (x :: a ++ c :: s) [c; c]) eqn:E; [|reflexivity].
      apply startswith_spec in E. destruct E as (r & E).
      injection E as -> E. exfalso. destruct a as [|y a].
      - exact (Hend [] eq_refl).
      - injection E as -> E. exact (Hno [] a eq_refl). }
    rewrite E. reflexivity.
Qed.

End Occurrences.

(** ** Toggling twice *)

Section Toggle.

Implicit Types (w a b s : str).

Lemma slice_around a (m : str) b lo hi :
  0 <= lo <= len a ->
  len a + len m <= hi <= len a + len m + len b ->
  slice (a ++ m ++ b) lo hi
  = drop (Z.to_nat lo) a ++ m ++ take (Z.to_nat (hi - len a - len m)) b.
Proof.
  intros Hlo Hhi.
  pose proof (len_nonneg m).
  rewrite slice_in_range by (rewrite ?len_app; lia).
  unfold len in *.
  rewrite drop_app_le by lia.
  rewrite take_app, length_drop.
  rewrite (take_ge (drop _ a)) by (rewrite length_drop; lia). f_equal.
  rewrite take_app, (take_ge m) by lia. f_equal. f_equal. lia.
Qed.

Lemma range_step_head stop :
  0 < stop -> exists tl, range_step 0 stop 2 = 0 :: tl.
Proof.
  intros H. unfold range_step.
  assert (1 <= (stop - 0 + 2 - 1) / 2) by (apply Z.div_le_lower_bound; lia).
  destruct (Z.to_nat ((stop - 0 + 2 - 1) / 2)) as [|n] eqn:E; [lia|].
  eexists. reflexivity.
Qed.

Lemma wrap_loop_first text left search_pos wlen m1 m2 rest tl :
  m_end m1 <= search_pos <= m_start m2 ->
  wrap_loop text left search_pos wlen (m1 :: m2 :: rest) (0 :: tl)
  = Some (Some
            (slice_to text (left + m_start m1)
               ++ slice text (left + m_start m1 + wlen) (left + m_end m2 - wlen)
               ++ slice_from text (left + m_end m2),
             left + m_start m1
             + len (slice text (left + m_start m1 + wlen) (left + m_end m2 - wlen)))).
Proof.
  intros [H1 H2]. cbn [wrap_loop].
  pose proof (len_nonneg rest).
  destruct (Z.ltb_spec (0 + 1) (len (m1 :: m2 :: rest))) as [_|Hge];
    [|rewrite !len_cons in Hge; lia].
  change (0 + 1) with (Z.of_nat 1). change 0 with (Z.of_nat 0) at 1.
  rewrite !index_lookup by (simpl; lia). cbn [lookup list_lookup mbind option_bind].
  destruct (Z.leb_spec (m_end m1) search_pos); [|lia].
  destruct (Z.leb_spec search_pos (m_start m2)); [|lia].
  reflexivity.
Qed.

(** The second call: the empty span that the first call left at the end of
    [a] is found and removed, provided the scan of the window reaches it
    without a match. *)
Lemma wrap_removes_empty_span w a b :
  w <> [] -> len w <= 20 ->
  (forall s i,
      finditer_from w (drop (Z.to_nat (Z.max 0 (len a + len w - 20))) a ++ w ++ s) i 0
      = finditer_from w (w ++ s)
          (i + len (drop (Z.to_nat (Z.max 0 (len a + len w - 20))) a)) 0) ->
  _wrap (a ++ w ++ w ++ b) (len a + len w) w = Some (a ++ b, len a).
Proof.
  intros Hw Hw20 Hscan.
  pose proof (len_nonneg a) as Ha. pose proof (len_nonneg b) as Hb.
  assert (0 < len w) as Hwpos
      by (destruct w; [congruence|rewrite len_cons; pose proof (len_nonneg w); lia]).
  unfold _wrap. set (left := Z.max 0 (len a + len w - 20)) in *.
  set (right := Z.min (len (a ++ w ++ w ++ b)) (len a + len w + 20)).
  assert (Hleft : 0 <= left <= len a) by (subst left; lia).
  assert (Hlen : len (a ++ w ++ w ++ b) = len a + len w + len w + len b)
    by (rewrite !len_app; lia).
  assert (E : slice (a ++ w ++ w ++ b) left right
              = drop (Z.to_nat left) a ++ w ++ w
                  ++ take (Z.to_nat (right - len a - len (w ++ w))) b).
  { rewrite (app_assoc w w b), slice_around, <- app_assoc; [reflexivity|lia|].
    rewrite len_app. subst right. lia. }
  rewrite E. unfold finditer. rewrite Hscan, !finditer_from_hit by exact Hw.
  set (a' := drop (Z.to_nat left) a).
  assert (Ha' : len a' = len a - left)
    by (subst a'; unfold len in *; rewrite length_drop; lia).
  match goal with
  | |- context [?m1 :: ?m2 :: finditer_from ?x ?y ?z ?n] =>
      set (rest := finditer_from x y z n)
  end.
  destruct (range_step_head
              (len ({| m_start := 0 + len a'; m_end := 0 + len a' + len w |}
                      :: {| m_start := 0 + len a' + len w;
                            m_end := 0 + len a' + len w + len w |} :: rest) - 1))
    as (tl & ->); [rewrite !len_cons; pose proof (len_nonneg rest); lia|].
  rewrite wrap_loop_first by (cbn [m_start m_end]; lia).
  cbn [m_start m_end mbind option_bind].
  replace (left + (0 + len a')) with (len a) by lia.
  replace (left + (0 + len a' + len w + len w) - len w) with (len a + len w) by lia.
  replace (left + (0 + len a' + len w + len w)) with (len (a ++ w ++ w)) 
    by (rewrite !len_app; lia).
  rewrite slice_empty, slice_to_app.
  replace (a ++ w ++ w ++ b) with ((a ++ w ++ w) ++ b)
    by (rewrite <- !app_assoc; reflexivity).
  rewrite slice_from_app. rewrite len_nil, Z.add_0_r. reflexivity.
Qed.

(** The first call, when the window has no occurrence. *)
Lemma wrap_inserts_when_no_occurrence w text pos :
  0 <= pos <= len text ->
  no_occurrence w (window text pos) ->
  _wrap text pos w
  = Some (take (Z.to_nat pos) text ++ w ++ w ++ drop (Z.to_nat pos) text,
          pos + len w).
Proof.
  intros Hpos Hno. unfold _wrap. fold (window text pos). unfold finditer.
  rewrite finditer_from_none by exact Hno.
  change (range_step 0 (len (@nil Match) - 1) 2) with (@nil Z).
  cbn [wrap_loop mbind option_bind].
  rewrite slice_to_take, slice_from_drop by lia. reflexivity.
Qed.

(** What the second window keeps of the text before the offset has no
    occurrence either. *)
Lemma no_occurrence_before w a b (n : nat) :
  (Z.to_nat (Z.max 0 (len a - 20)) <= n)%nat ->
  no_occurrence w (window (a ++ b) (len a)) ->
  no_occurrence w (drop n a).
Proof.
  intros Hn Hno. unfold window in Hno.
  pose proof (len_nonneg a). pose proof (len_nonneg b).
  change (a ++ b) with (a ++ [] ++ b) in Hno.
  rewrite slice_around in Hno
    by (rewrite ?len_app, ?len_nil; lia).
  set (left := Z.to_nat (Z.max 0 (len a - 20))) in *.
  rewrite <- (take_drop (n - left) (drop left a)) in Hno.
  rewrite drop_drop in Hno.
  replace (left + (n - left))%nat with n in Hno by lia.
  rewrite <- app_assoc in Hno.
  eapply no_occurrence_middle. exact Hno.
Qed.

End Toggle.

Section ToggleTwice.

Implicit Types (w a b : str).

Lemma drop_not_ending w a (n : nat) c :
  (forall a0, a <> a0 ++ [c]) -> forall a0, drop n a <> a0 ++ [c].
Proof.
  intros H a0 E. apply (H (take n a ++ a0)).
  rewrite <- app_assoc, <- E. symmetry. apply take_drop.
Qed.

(** The second call after an insertion at the end of [a]. *)
Lemma wrap_twice_at w a b :
  In w delimiters ->
  no_occurrence w (window (a ++ b) (len a)) ->
  (w = lit "**" -> forall a0, a <> a0 ++ lit "*") ->
  _wrap (a ++ w ++ w ++ b) (len a + len w) w = Some (a ++ b, len a).
Proof.
  intros Hw Hno Hstar.
  pose proof (len_nonneg a) as Ha.
  assert (Hbefore : no_occurrence w
            (drop (Z.to_nat (Z.max 0 (len a + len w - 20))) a)).
  { apply (no_occurrence_before w a b); [|exact Hno].
    pose proof (len_nonneg w). lia. }
  destruct Hw as [<-|[<-|[<-|[]]]].
  - apply wrap_removes_empty_span; [discriminate|vm_compute; discriminate|].
    intros s i. change (lit "**") with [42%N; 42%N] in *.
    apply (finditer_from_prefix_double 42%N _ (42%N :: s) i Hbefore).
    apply (drop_not_ending [42%N; 42%N]). exact (Hstar eq_refl).
  - apply wrap_removes_empty_span; [discriminate|vm_compute; discriminate|].
    intros s i. change (lit "*") with [42%N] in *.
    apply finditer_from_prefix_single, no_occurrence_not_in, Hbefore.
  - apply wrap_removes_empty_span; [discriminate|vm_compute; discriminate|].
    intros s i. change (lit "`") with [96%N] in *.
    apply finditer_from_prefix_single, no_occurrence_not_in, Hbefore.
Qed.

End ToggleTwice.

(** C3, as stated, fails: [bold] at offset 1 of the text "*" has no "**" in
    its window and gives "*****" and offset 3; the scan of that text pairs
    the stars as (0,2) and (2,4), the offset 3 is not between them, and the
    second call inserts again: "*********" and offset 5. *)
Lemma toggle_round_trip_counterexample : ~ toggle_round_trip_as_stated.
Proof.
  intros H. destruct (H (lit "*") 1 (lit "**")) as (t1 & p1 & E1 & E2).
  - left. reflexivity.
  - vm_compute. split; discriminate.
  - intros a b E. apply (f_equal (@length N)) in E.
    rewrite !length_app in E.
    change (length (window (lit "*") 1)) with 1%nat in E.
    change (length (lit "**")) with 2%nat in E. lia.
  - assert (E : bold (lit "*") 1 = Some (lit "*****", 3)) by reflexivity.
    unfold bold in E. rewrite E in E1. injection E1 as <- <-.
    assert (E' : bold (lit "*****") 3 = Some (lit "*********", 5)) by reflexivity.
    unfold bold in E'. rewrite E' in E2. discriminate E2.
Qed.

(** C3, amended. For every text and offset within it such that the delimiter
    ([**], [*] or [`]) does not occur in the 20-character window around the
    offset and, for [**], the character just before the offset is not [*]:
    the first call of [_wrap] puts an empty span at the offset, and the
    second call, on its result, removes it and returns the text and the
    offset of the start. *)
Theorem toggle_round_trip (text : str) (pos : Z) (wrapper : str) :
  In wrapper delimiters ->
  0 <= pos <= len text ->
  no_occurrence wrapper (window text pos) ->
  (wrapper = lit "**" -> forall a, take (Z.to_nat pos) text <> a ++ lit "*") ->
  exists t1 p1,
    _wrap text pos wrapper = Some (t1, p1)
    /\ t1 = take (Z.to_nat pos) text ++ wrapper ++ wrapper ++ drop (Z.to_nat pos) text
    /\ p1 = pos + len wrapper
    /\ _wrap t1 p1 wrapper = Some (text, pos).
Proof.
  intros Hw Hpos Hno Hstar. eexists _, _.
  split; [apply wrap_inserts_when_no_occurrence; assumption|].
  split; [reflexivity|]. split; [reflexivity|].
  remember (take (Z.to_nat pos) text) as a eqn:Ea.
  remember (drop (Z.to_nat pos) text) as b eqn:Eb.
  assert (Et : text = a ++ b) by (subst a b; symmetry; apply take_drop).
  assert (Ep : pos = len a)
    by (subst a; unfold len in *; rewrite length_take; lia).
  clear Ea Eb. subst text pos.
  apply wrap_twice_at; assumption.
Qed.

Lemma toggle_round_trip_witness :
  exists t1 p1,
    _wrap (lit "a*b") 1 (lit "**") = Some (t1, p1)
    /\ t1 = take (Z.to_nat 1) (lit "a*b") ++ lit "**" ++ lit "**"
              ++ drop (Z.to_nat 1) (lit "a*b")
    /\ p1 = 1 + len (lit "**")
    /\ _wrap t1 p1 (lit "**") = Some (lit "a*b", 1).
Proof.
  apply (toggle_round_trip (lit "a*b") 1 (lit "**")).
  - left. reflexivity.
  - vm_compute. split; discriminate.
  - intros a b E.
    change (window (lit "a*b") 1) with [97%N; 42%N; 98%N] in E.
    change (lit "**") with [42%N; 42%N] in E.
    destruct a as [|x [|y [|z a]]]; try discriminate E.
    destruct a; discriminate E.
  - intros _ a E. change (take (Z.to_nat 1) (lit "a*b")) with [97%N] in E.
    change (lit "*") with [42%N] in E.
    destruct a as [|x a]; [discriminate E|].
    destruct a; discriminate E.
Defined.

(** ** Offsets past the end of the document *)

Section PastEnd.

Variables (text : str) (pos : Z).
Hypothesis Hpast : len text < pos.

(** The walk runs to its end: no line is selected, and [current_pos] is
    one past the length of the text. *)
Lemma line_walk_past_end :
  line_walk (split nl text) pos 0 0 = (None, len text + 1).
Proof using Hpast.
  pose proof (len_join (split nl text) (split_nonempty nl text)) as H.
  rewrite join_split in H.
  rewrite line_walk_past by lia. f_equal. lia.
Qed.

(** [heading] then works on line 0, the value [target_line] was given
    before the loop. *)
Lemma heading_past_end level first rest :
  1 <= level <= 6 ->
  split nl text = first :: rest ->
  heading text pos level
  = Some (join [nl] (heading_line level first :: rest),
          len text + 1
          + Z.min (pos - (len text + 1) + (len (heading_line level first) - len first))
                  (len (heading_line level first))).
Proof using Hpast.
  intros Hlevel Hsplit. unfold heading.
  destruct (Z.leb_spec 1 level), (Z.leb_spec level 6); try lia.
  cbn [andb negb]. rewrite line_walk_past_end, Hsplit. reflexivity.
Qed.

Lemma listItem_past_end first rest :
  split nl text = first :: rest ->
  listItem text pos
  = Some (join [nl] (fst (list_line first) :: rest), pos + snd (list_line first)).
Proof using Hpast.
  intros Hsplit. unfold listItem.
  rewrite line_walk_past_end, Hsplit. cbn [from_option].
  change (index (first :: rest) 0) with (Some first). cbn [mbind option_bind].
  unfold list_line. destruct (startswith (lstrip first) (lit "- ")); reflexivity.
Qed.

End PastEnd.

(** C4. The specification has an offset past the end of the document select
    the last line, without raising. [heading] and [listItem] do not raise,
    but they select line 0: on the two-line document "a\nb" at offset 10,
    [heading] with level 1 returns "# a\nb" and 7, and [listItem] returns
    "- a\nb" and 12. *)
Theorem offset_past_end_selects_first_line :
  heading (lit "a" ++ [nl] ++ lit "b") 10 1
  = Some (lit "# a" ++ [nl] ++ lit "b", 7)
  /\ listItem (lit "a" ++ [nl] ++ lit "b") 10
     = Some (lit "- a" ++ [nl] ++ lit "b", 12).
Proof. split; reflexivity. Qed.

(** ** The bounds of the offset returned *)

Section Bounds.

Implicit Types (text s w line : str) (lines : list str).

Lemma len_slice_to {A} (l : list A) p :
  0 <= p <= len l -> len (slice_to l p) = p.
Proof.
  intros H. rewrite slice_to_take by lia. unfold len in *.
  rewrite length_take. lia.
Qed.

Lemma len_slice_from {A} (l : list A) p :
  0 <= p <= len l -> len (slice_from l p) = len l - p.
Proof.
  intros H. rewrite slice_from_drop by lia. unfold len in *.
  rewrite length_drop. lia.
Qed.

Lemma len_slice {A} (l : list A) lo hi :
  0 <= lo <= hi -> hi <= len l -> len (slice l lo hi) = hi - lo.
Proof.
  intros H1 H2. rewrite slice_in_range by lia. unfold len in *.
  rewrite length_take, length_drop. lia.
Qed.

(** Every occurrence found starts inside the string searched. *)
Lemma finditer_from_bounds w s : forall i skip m,
  In m (finditer_from w s i skip) -> i <= m_start m < i + len s.
Proof.
  induction s as [|c s IH]; intros i skip m Hin; [destruct Hin|].
  rewrite len_cons. pose proof (len_nonneg s).
  cbn [finditer_from] in Hin. destruct skip as [|skip].
  - destruct (startswith (c :: s) w).
    + destruct Hin as [<-|Hin]; [cbn [m_start]; lia|].
      specialize (IH _ _ _ Hin). lia.
    + specialize (IH _ _ _ Hin). lia.
  - specialize (IH _ _ _ Hin). lia.
Qed.

(** The loop of [_wrap] does not raise: it runs to its end, or it returns
    the text without two of the occurrences found. *)
Lemma wrap_loop_cases text left search_pos wlen matches idx :
  Forall (fun i => exists k : nat, i = Z.of_nat (2 * k)) idx ->
  wrap_loop text left search_pos wlen matches idx = Some None
  \/ exists m1 m2,
       In m1 matches
       /\ wrap_loop text left search_pos wlen matches idx
          = Some (Some
                    (slice_to text (left + m_start m1)
                       ++ slice text (left + m_start m1 + wlen) (left + m_end m2 - wlen)
                       ++ slice_from text (left + m_end m2),
                     left + m_start m1
                     + len (slice text (left + m_start m1 + wlen)
                              (left + m_end m2 - wlen)))).
Proof.
  intros Hidx. induction Hidx as [|i idx (k & ->) _ IH]; [left; reflexivity|].
  remember (2 * k)%nat as n eqn:En. cbn [wrap_loop].
  destruct (Z.ltb_spec (Z.of_nat n + 1) (len matches)) as [Hlt|_]; [|exact IH].
  unfold len in Hlt.
  destruct (lookup_lt_is_Some_2 matches n) as [m1 H1]; [lia|].
  destruct (lookup_lt_is_Some_2 matches (n + 1)) as [m2 H2]; [lia|].
  rewrite index_lookup by lia. rewrite H1. cbn [mbind option_bind].
  replace (Z.of_nat n + 1) with (Z.of_nat (n + 1)) by lia.
  rewrite index_lookup by lia. rewrite H2. cbn [mbind option_bind].
  destruct ((m_end m1 <=? search_pos) && (search_pos <=? m_start m2));
    [|exact IH].
  right. exists m1, m2. split; [|reflexivity].
  apply list_elem_of_In, list_elem_of_lookup. eauto.
Qed.

(** [_wrap] returns, and its offset is within the text it returns. *)
Lemma wrap_offset_in_bounds text pos w :
  0 <= pos <= len text ->
  exists new_text new_pos,
    _wrap text pos w = Some (new_text, new_pos)
    /\ 0 <= new_pos <= len new_text.
Proof.
  intros Hpos. unfold _wrap.
  pose proof (len_nonneg w) as Hw.
  destruct (wrap_loop_cases text (Z.max 0 (pos - 20)) (pos - Z.max 0 (pos - 20))
              (len w)
              (finditer w (slice text (Z.max 0 (pos - 20))
                             (Z.min (len text) (pos + 20))))
              (range_step 0
                 (len (finditer w (slice text (Z.max 0 (pos - 20))
                                     (Z.min (len text) (pos + 20)))) - 1) 2)
              (range_step_even _))
    as [->|(m1 & m2 & Hin & ->)]; cbn [mbind option_bind].
  - eexists _, _. split; [reflexivity|].
    rewrite !len_app, len_slice_to, len_slice_from by lia. lia.
  - eexists _, _. split; [reflexivity|].
    apply finditer_from_bounds in Hin. rewrite len_slice in Hin by lia.
    rewrite !len_app, len_slice_to by lia.
    pose proof (len_nonneg (slice text (Z.max 0 (pos - 20) + m_start m1 + len w)
                              (Z.max 0 (pos - 20) + m_end m2 - len w))).
    pose proof (len_nonneg (slice_from text (Z.max 0 (pos - 20) + m_end m2))).
    lia.
Qed.

Lemma link_offset_in_bounds text pos :
  0 <= pos <= len text ->
  exists new_text new_pos,
    link text pos = Some (new_text, new_pos)
    /\ 0 <= new_pos <= len new_text.
Proof.
  intros Hpos. eexists _, _. split; [reflexivity|].
  rewrite !len_app, len_slice_to, len_slice_from by lia.
  change (len (lit "[text](url)")) with 11. lia.
Qed.

Lemma codeBlock_offset_in_bounds text pos :
  0 <= pos <= len text ->
  exists new_text new_pos,
    codeBlock text pos = Some (new_text, new_pos)
    /\ 0 <= new_pos <= len new_text.
Proof.
  intros Hpos. unfold codeBlock.
  destruct (line_walk (split nl text) pos 0 0) as [found current_pos].
  assert (E : exists mid_line : bool,
             (if pos >? 0
              then index text (pos - 1) ≫= (fun c => Some (negb (N.eqb c nl)))
              else Some false) = Some mid_line).
  { destruct (Z.gtb_spec pos 0); [|eauto].
    rewrite index_in_range by lia.
    destruct (lookup_lt_is_Some_2 text (Z.to_nat (pos - 1))) as [c ->];
      [unfold len in Hpos; lia|]. eauto. }
  destruct E as (mid_line & ->). cbn [mbind option_bind].
  destruct mid_line; eexists _, _; (split; [reflexivity|]);
    rewrite !len_app, len_slice_to, len_slice_from by lia;
    rewrite ?len_cons; change (len (@nil N)) with 0;
    change (len (lit "```")) with 3; lia.
Qed.

Lemma line_start_insert_total lines : forall (k : nat) line new_line,
  lines !! k = Some line ->
  line_start (<[k := new_line]> lines) (length lines)
  = line_start lines (length lines) - len line + len new_line.
Proof.
  induction lines as [|l rest IH]; intros k line new_line Hk; [discriminate|].
  destruct k as [|k]; simpl in Hk.
  - injection Hk as ->. simpl. lia.
  - change (<[S k := new_line]> (l :: rest)) with (l :: <[k := new_line]> rest).
    change (length (l :: rest)) with (S (length rest)).
    change (line_start (l :: <[k := new_line]> rest) (S (length rest)))
      with (len l + 1 + line_start (<[k := new_line]> rest) (length rest)).
    change (line_start (l :: rest) (S (length rest)))
      with (len l + 1 + line_start rest (length rest)).
    rewrite (IH k line new_line Hk). lia.
Qed.

Lemma len_join_insert lines (k : nat) line new_line :
  lines !! k = Some line ->
  len (join [nl] (<[k := new_line]> lines))
  = len (join [nl] lines) - len line + len new_line.
Proof.
  intros Hk.
  assert (Hne : lines <> []) by (intros ->; discriminate).
  assert (Hne' : <[k := new_line]> lines <> []).
  { intros E. apply (f_equal length) in E. rewrite length_insert in E.
    destruct lines; [congruence|discriminate]. }
  pose proof (len_join _ Hne) as H1. pose proof (len_join _ Hne') as H2.
  rewrite length_insert in H2.
  rewrite (line_start_insert_total lines k line new_line Hk) in H2. lia.
Qed.

Lemma list_line_len line :
  len (fst (list_line line)) = len line + snd (list_line line).
Proof.
  destruct (list_line_spec line) as (indent & rest & -> & _ & _ & Hcase).
  destruct Hcase as [(r & -> & ->)|(_ & ->)]; cbn [fst snd];
    rewrite !len_app; change (len (lit "- ")) with 2; lia.
Qed.

(** [heading] and [listItem] return, and their offset is not past the end of
    the text they return. *)
Lemma heading_offset_upper_bound text pos level :
  0 <= pos <= len text ->
  exists new_text new_pos,
    heading text pos level = Some (new_text, new_pos)
    /\ new_pos <= len new_text.
Proof.
  intros Hpos.
  destruct (Z_le_dec 1 level) as [H1|H1]; [destruct (Z_le_dec level 6) as [H6|H6]|].
  - destruct (line_walk_in_range text pos Hpos) as (k & line & Hk & Hr & _).
    eexists _, _. split; [apply (heading_at text pos k line Hk Hr level); lia|].
    rewrite (len_join_insert _ k line _ Hk), join_split.
    pose proof (line_start_le _ _ _ Hk) as Hle. rewrite join_split in Hle. lia.
  - exists text, pos. split; [|lia]. unfold heading.
    destruct (Z.leb_spec level 6); [lia|]. rewrite andb_false_r. reflexivity.
  - exists text, pos. split; [|lia]. unfold heading.
    destruct (Z.leb_spec 1 level); [lia|]. reflexivity.
Qed.

Lemma listItem_offset_upper_bound text pos :
  0 <= pos <= len text ->
  exists new_text new_pos,
    listItem text pos = Some (new_text, new_pos)
    /\ new_pos <= len new_text.
Proof.
  intros Hpos.
  destruct (line_walk_in_range text pos Hpos) as (k & line & Hk & Hr & _).
  eexists _, _. split; [apply (listItem_at text pos k line Hk Hr)|].
  rewrite (len_join_insert _ k line _ Hk), join_split, list_line_len. lia.
Qed.

End Bounds.

(** C1. The specification has every operation return an offset between 0
    and the length of the text it returns. [_wrap], [link] and [codeBlock]
    do (see the lemmas above), and [heading] and [listItem] stay below the
    upper bound, but they return an offset below 0 at the start of a line
    whose marker gets shorter: [heading] with level 1 at offset 0 of "## a"
    returns "# a" and -1, and [listItem] at offset 0 of "- a" returns "a"
    and -2. *)
Theorem heading_listItem_offset_below_zero :
  heading (lit "## a") 0 1 = Some (lit "# a", -1)
  /\ listItem (lit "- a") 0 = Some (lit "a", -2).
Proof. split; reflexivity. Qed.

(** * Further properties of the code *)

(** ** Insertion at any integer offset *)

Section AnyOffset.

Context {A : Type}.
Implicit Types s : list A.

Lemma slice_to_clamp s p :
  slice_to s p = take (Z.to_nat (clamp_index (len s) p)) s.
Proof.
  unfold slice_to, slice. pose proof (len_nonneg s).
  replace (clamp_index (len s) 0) with 0
    by (unfold clamp_index; simpl; lia).
  rewrite Z.sub_0_r. reflexivity.
Qed.

Lemma slice_from_clamp s p :
  slice_from s p = drop (Z.to_nat (clamp_index (len s) p)) s.
Proof.
  unfold slice_from, slice. pose proof (len_nonneg s).
  replace (clamp_index (len s) (len s)) with (len s)
    by (unfold clamp_index; destruct (Z.ltb_spec (len s) 0); lia).
  apply take_ge. rewrite length_drop. unfold len, clamp_index in *.
  destruct (p <? 0); lia.
Qed.

(** [s[:p] + s[p:] == s] for every integer [p]. *)
Lemma slice_to_from_any s p : slice_to s p ++ slice_from s p = s.
Proof. rewrite slice_to_clamp, slice_from_clamp. apply take_drop. Qed.

End AnyOffset.

(** X4. [link] never raises and never loses a character, whatever the
    integer it is given as offset: the text is cut in two and the
    placeholder is put between the parts; the offset returned is the offset
    given plus 1. For an offset within the text the cut is at the offset, so
    that the offset returned is just after the opening bracket. *)
Theorem link_inserts_placeholder (text : str) (pos : Z) :
  exists a b,
    text = a ++ b
    /\ link text pos = Some (a ++ lit "[text](url)" ++ b, pos + 1)
    /\ (0 <= pos <= len text ->
        len a = pos /\ (a ++ lit "[text](url)" ++ b) !! Z.to_nat pos = Some 91%N).
Proof.
  exists (slice_to text pos), (slice_from text pos).
  split; [symmetry; apply slice_to_from_any|]. split; [reflexivity|].
  intros Hpos. rewrite slice_to_take by lia.
  assert (E : length (take (Z.to_nat pos) text) = Z.to_nat pos)
    by (rewrite length_take; unfold len in Hpos; lia).
  split; [unfold len; lia|].
  rewrite lookup_app_r by lia. rewrite E, Nat.sub_diag. reflexivity.
Qed.

Lemma link_inserts_placeholder_witness :
  exists a b,
    lit "hello world" = a ++ b
    /\ link (lit "hello world") 5 = Some (a ++ lit "[text](url)" ++ b, 5 + 1)
    /\ (0 <= 5 <= len (lit "hello world") ->
        len a = 5 /\ (a ++ lit "[text](url)" ++ b) !! Z.to_nat 5 = Some 91%N).
Proof. apply (link_inserts_placeholder (lit "hello world") 5). Defined.

(** ** [codeBlock]: the exception, and where the fences go *)

(** X5. [codeBlock] raises (the [IndexError] of [text[pos - 1]]) exactly when
    the offset is past the end of the text: at every other integer offset it
    returns. *)
Theorem codeBlock_raises_past_end_only (text : str) (pos : Z) :
  codeBlock text pos = None <-> len text < pos.
Proof.
  unfold codeBlock. pose proof (len_nonneg text) as Hlen.
  destruct (line_walk (split nl text) pos 0 0) as [found current_pos].
  destruct (Z.gtb_spec pos 0) as [Hgt|Hle].
  - unfold index, subscript.
    destruct (Z.ltb_spec (pos - 1) 0); [lia|].
    destruct (Z.leb_spec 0 (pos - 1)); [|lia].
    destruct (Z.ltb_spec (pos - 1) (len text)) as [Hin|Hout]; cbn [andb mbind option_bind].
    + destruct (lookup_lt_is_Some_2 text (Z.to_nat (pos - 1))) as [c ->];
        [unfold len in Hin; lia|].
      cbn [mbind option_bind]. split; [|lia].
      destruct (negb (N.eqb c nl)); discriminate.
    + split; [lia|reflexivity].
  - cbn [mbind option_bind]. split; [discriminate|lia].
Qed.

(** X6. At an offset within the text, the opening fence that [codeBlock]
    writes starts a line (it is at the start of the text or just after a
    newline, which [codeBlock] adds when there is none), and the offset
    returned is on the empty line between the two fences: just after the
    newline that ends the opening fence. *)
Theorem codeBlock_fences_on_their_own_lines (text : str) (pos : Z) :
  0 <= pos <= len text ->
  exists before,
    (before = take (Z.to_nat pos) text
     \/ before = take (Z.to_nat pos) text ++ [nl])
    /\ (before = [] \/ exists h, before = h ++ [nl])
    /\ codeBlock text pos
       = Some (before ++ lit "```" ++ [nl] ++ [nl] ++ lit "```" ++ [nl]
                 ++ drop (Z.to_nat pos) text,
               len (before ++ lit "```" ++ [nl])).
Proof.
  intros Hpos. unfold codeBlock.
  destruct (line_walk (split nl text) pos 0 0) as [found current_pos].
  rewrite slice_to_take, slice_from_drop by lia.
  assert (Hl : len (take (Z.to_nat pos) text) = pos)
    by (unfold len in *; rewrite length_take; lia).
  destruct (Z.gtb_spec pos 0) as [Hgt|Hle].
  - rewrite index_in_range by lia.
    destruct (lookup_lt_is_Some_2 text (Z.to_nat (pos - 1))) as [c Hc];
      [unfold len in Hpos; lia|].
    rewrite Hc. cbn [mbind option_bind].
    destruct (N.eqb_spec c nl) as [->|Hne]; cbn [negb].
    + exists (take (Z.to_nat pos) text). split; [left; reflexivity|]. split.
      * right. exists (take (Z.to_nat (pos - 1)) text).
        replace (Z.to_nat pos) with (S (Z.to_nat (pos - 1))) by lia.
        apply take_S_r, Hc.
      * rewrite !len_app, Hl.
        replace (pos + (len (lit "```") + len [nl])) with (pos + 4)
          by (change (len (lit "```")) with 3; change (len [nl]) with 1; lia).
        reflexivity.
    + exists (take (Z.to_nat pos) text ++ [nl]). split; [right; reflexivity|]. split.
      * right. eexists. reflexivity.
      * rewrite !len_app, Hl, <- !app_assoc.
        replace (pos + len [nl] + (len (lit "```") + len [nl])) with (pos + 5)
          by (change (len (lit "```")) with 3; change (len [nl]) with 1; lia).
        reflexivity.
  - assert (pos = 0) as -> by lia. exists []. split; [left; reflexivity|].
    split; [left; reflexivity|]. reflexivity.
Qed.

Lemma codeBlock_fences_on_their_own_lines_witness :
  exists before,
    (before = take (Z.to_nat 2) (lit "ab" ++ [nl] ++ lit "c")
     \/ before = take (Z.to_nat 2) (lit "ab" ++ [nl] ++ lit "c") ++ [nl])
    /\ (before = [] \/ exists h, before = h ++ [nl])
    /\ codeBlock (lit "ab" ++ [nl] ++ lit "c") 2
       = Some (before ++ lit "```" ++ [nl] ++ [nl] ++ lit "```" ++ [nl]
                 ++ drop (Z.to_nat 2) (lit "ab" ++ [nl] ++ lit "c"),
               len (before ++ lit "```" ++ [nl])).
Proof.
  apply (codeBlock_fences_on_their_own_lines (lit "ab" ++ [nl] ++ lit "c") 2).
  vm_compute. split; discriminate.
Defined.

(** ** Headings and list items, called again *)

Section CalledAgain.

Implicit Types (line rest indent : str) (lines : list str).

Lemma line_start_insert_same lines : forall (k j : nat) new_line,
  (j <= k)%nat -> line_start (<[k := new_line]> lines) j = line_start lines j.
Proof.
  induction lines as [|l ls IH]; intros k j new_line Hj; [reflexivity|].
  destruct j as [|j]; [destruct k; reflexivity|].
  destruct k as [|k]; [lia|].
  change (<[S k := new_line]> (l :: ls)) with (l :: <[k := new_line]> ls).
  change (line_start (l :: <[k := new_line]> ls) (S j))
    with (len l + 1 + line_start (<[k := new_line]> ls) j).
  change (line_start (l :: ls) (S j)) with (len l + 1 + line_start ls j).
  rewrite IH by lia. reflexivity.
Qed.

(** The lines of the document that [heading] or [listItem] returns. *)
Lemma rewritten_line text (k : nat) line new_line :
  split nl text !! k = Some line ->
  ~ In nl new_line ->
  split nl (join [nl] (<[k := new_line]> (split nl text))) !! k = Some new_line
  /\ line_start (split nl (join [nl] (<[k := new_line]> (split nl text)))) k
     = line_start (split nl text) k.
Proof.
  intros Hk Hnew. rewrite split_join_insert by exact Hnew. split.
  - apply list_lookup_insert_eq. exact (lookup_lt_Some _ _ _ Hk).
  - apply line_start_insert_same. lia.
Qed.

Lemma hashes_replicate (n most : nat) c r :
  (n <= most)%nat -> c <> hash ->
  hashes most (replicate n hash ++ c :: r) = n.
Proof.
  revert most; induction n as [|n IH]; intros most Hn Hc.
  - destruct most; simpl; [reflexivity|].
    destruct (N.eqb_spec c hash); [contradiction|reflexivity].
  - destruct most as [|most]; [lia|]. simpl.
    rewrite IH by (lia || exact Hc). reflexivity.
Qed.

Lemma lstrip_idle rest : ~ starts_with_space rest -> lstrip rest = rest.
Proof.
  intros H. destruct rest as [|c rest]; [reflexivity|]. simpl.
  destruct (isspace c) eqn:E; [|reflexivity].
  exfalso. apply H. exists c, rest. split; [reflexivity|exact E].
Qed.

Lemma lstrip_indent indent rest :
  Forall (fun c => isspace c = true) indent ->
  ~ starts_with_space rest ->
  lstrip (indent ++ rest) = rest.
Proof.
  intros Hind Hrest. induction Hind as [|c indent Hc _ IH].
  - apply lstrip_idle, Hrest.
  - simpl. rewrite Hc. exact IH.
Qed.

(** The line that [heading] wrote, given to [heading] again: the marker it
    wrote is the marker it removes. *)
Lemma heading_line_again l1 l2 line rest :
  1 <= l1 <= 6 ->
  heading_line l1 line = times hash l1 ++ [space] ++ rest ->
  heading_line l2 (heading_line l1 line)
  = times hash l2 ++ [space] ++ lstrip rest.
Proof.
  intros Hl1 ->. unfold heading_line at 1. unfold match_heading, times.
  cbn [app]. rewrite hashes_replicate by (lia || discriminate).
  destruct (Z.to_nat l1) as [|n] eqn:En; [lia|]. rewrite <- En. cbn [m_end].
  rewrite drop_app_length' by (rewrite length_replicate; reflexivity).
  change (spaces (space :: rest)) with (S (spaces rest)).
  pose proof (spaces_le_length rest).
  rewrite slice_from_nat
    by (rewrite length_app, length_replicate; simpl; lia).
  rewrite <- drop_drop.
  rewrite drop_app_length' by (rewrite length_replicate; reflexivity).
  change (drop (S (spaces rest)) (space :: rest)) with (drop (spaces rest) rest).
  rewrite lstrip_drop. reflexivity.
Qed.

(** The line that [listItem] wrote when it put the marker, given to
    [listItem] again. *)
Lemma list_line_again indent rest :
  Forall (fun c => isspace c = true) indent ->
  ~ starts_with_space rest ->
  list_line (indent ++ lit "- " ++ rest) = (indent ++ rest, -2).
Proof.
  intros Hind Hrest. unfold list_line.
  assert (E : lstrip (indent ++ lit "- " ++ rest) = lit "- " ++ rest).
  { apply lstrip_indent; [exact Hind|].
    intros (c & s' & E & Hc). injection E as <- _. discriminate Hc. }
  rewrite E.
  replace (startswith (lit "- " ++ rest) (lit "- ")) with true
    by (symmetry; apply startswith_spec; eexists; reflexivity).
  replace (len (indent ++ lit "- " ++ rest) - len (lit "- " ++ rest))
    with (len indent) by (rewrite !len_app; lia).
  rewrite slice_to_app. change 2 with (len (lit "- ")).
  rewrite slice_from_app. reflexivity.
Qed.

End CalledAgain.

(** X7. For every offset within the document and every level from 1 to 6,
    the offset that [heading] returns is the offset given moved by the
    change of the length of the document: the [min] of the source never
    takes its second argument. *)
Theorem heading_moves_offset_by_length_change (text : str) (pos level : Z) :
  0 <= pos <= len text ->
  1 <= level <= 6 ->
  exists new_text new_pos,
    heading text pos level = Some (new_text, new_pos)
    /\ new_pos - pos = len new_text - len text.
Proof.
  intros Hpos Hlevel.
  destruct (line_walk_in_range text pos Hpos) as (k & line & Hk & Hr & _).
  eexists _, _. split; [apply (heading_at text pos k line Hk Hr level Hlevel)|].
  rewrite (len_join_insert _ k line _ Hk), join_split. lia.
Qed.

Lemma heading_moves_offset_by_length_change_witness :
  exists new_text new_pos,
    heading (lit "a" ++ [nl] ++ lit "# b") 5 3 = Some (new_text, new_pos)
    /\ new_pos - 5 = len new_text - len (lit "a" ++ [nl] ++ lit "# b").
Proof.
  apply (heading_moves_offset_by_length_change (lit "a" ++ [nl] ++ lit "# b") 5 3).
  - vm_compute. split; discriminate.
  - lia.
Defined.

(** X8. Markers do not pile up. After [heading] with a level from 1 to 6 at
    an offset within the document, [heading] with another level at any
    offset of the line it wrote gives the same document, but for that line,
    which is the new level times [#], one space, and the line as it was at
    first without its marker and without leading whitespace. *)
Theorem heading_again_replaces_level (text : str) (pos l1 l2 : Z) :
  0 <= pos <= len text ->
  1 <= l1 <= 6 -> 1 <= l2 <= 6 ->
  exists (k : nat) line rest t1 p1,
    split nl text !! k = Some line
    /\ marker_stripped line rest
    /\ heading text pos l1 = Some (t1, p1)
    /\ forall pos',
        line_start (split nl text) k <= pos'
        <= line_start (split nl text) k + len (times hash l1 ++ [space] ++ rest) ->
        exists p2,
          heading t1 pos' l2
          = Some (join [nl] (<[k := times hash l2 ++ [space] ++ lstrip rest]>
                               (split nl text)), p2).
Proof.
  intros Hpos Hl1 Hl2.
  destruct (line_walk_in_range text pos Hpos) as (k & line & Hk & Hr & _).
  destruct (heading_line_spec l1 line) as (rest & Hrest & Hnew).
  assert (Hline : ~ In nl line).
  { pose proof (split_no_sep nl text) as H.
    rewrite List.Forall_forall in H. apply H.
    apply list_elem_of_In, list_elem_of_lookup. eauto. }
  pose proof (heading_line_no_newline l1 line Hline) as Hnl.
  destruct (rewritten_line text k line (heading_line l1 line) Hk Hnl) as (Hk1 & Hs1).
  exists k, line, rest. eexists _, _.
  split; [exact Hk|]. split; [exact Hrest|].
  split; [apply (heading_at text pos k line Hk Hr l1 Hl1)|].
  intros pos' Hpos'. rewrite <- Hnew in Hpos'. rewrite <- Hs1 in Hpos'.
  eexists.
  rewrite (heading_at _ pos' k (heading_line l1 line) Hk1 Hpos' l2 Hl2).
  rewrite split_join_insert by exact Hnl.
  rewrite list_insert_insert_eq.
  rewrite (heading_line_again l1 l2 line rest Hl1 Hnew). reflexivity.
Qed.

Lemma heading_again_replaces_level_witness :
  exists (k : nat) line rest t1 p1,
    split nl (lit "## a") !! k = Some line
    /\ marker_stripped line rest
    /\ heading (lit "## a") 4 5 = Some (t1, p1)
    /\ forall pos',
        line_start (split nl (lit "## a")) k <= pos'
        <= line_start (split nl (lit "## a")) k
           + len (times hash 5 ++ [space] ++ rest) ->
        exists p2,
          heading t1 pos' 1
          = Some (join [nl] (<[k := times hash 1 ++ [space] ++ lstrip rest]>
                               (split nl (lit "## a"))), p2).
Proof.
  apply (heading_again_replaces_level (lit "## a") 4 5 1).
  - vm_compute. split; discriminate.
  - lia.
  - lia.
Defined.

(** X9. Putting a list marker is undone by the next call. At an offset
    within the document, whenever [listItem] returns the offset plus 2 (it
    put [- ] on the line), [listItem] on what it returned gives back the
    document and the offset. *)
Theorem listItem_put_then_removed (text : str) (pos : Z) (t1 : str) (p1 : Z) :
  0 <= pos <= len text ->
  listItem text pos = Some (t1, p1) ->
  p1 = pos + 2 ->
  listItem t1 p1 = Some (text, pos).
Proof.
  intros Hpos H1 Hp1.
  destruct (line_walk_in_range text pos Hpos) as (k & line & Hk & Hr & _).
  rewrite (listItem_at text pos k line Hk Hr) in H1. injection H1 as <- Hp.
  destruct (list_line_spec line) as (indent & rest & El & Hind & Hrest & Hcase).
  destruct Hcase as [(r & _ & E)|(_ & E)]; rewrite E in Hp |- *; cbn [fst snd] in *;
    [lia|].
  assert (Hline : ~ In nl line).
  { pose proof (split_no_sep nl text) as H.
    rewrite List.Forall_forall in H. apply H.
    apply list_elem_of_In, list_elem_of_lookup. eauto. }
  assert (Hnl : ~ In nl (indent ++ lit "- " ++ rest)).
  { pose proof (list_line_no_newline line Hline) as H. rewrite E in H. exact H. }
  destruct (rewritten_line text k line _ Hk Hnl) as (Hk1 & Hs1).
  rewrite (listItem_at _ p1 k (indent ++ lit "- " ++ rest) Hk1).
  - rewrite split_join_insert by exact Hnl.
    rewrite list_insert_insert_eq, (list_line_again indent rest Hind Hrest).
    cbn [fst snd]. rewrite <- El, (list_insert_id _ _ _ Hk), join_split.
    f_equal. f_equal. lia.
  - rewrite Hs1. subst line p1. rewrite !len_app in *.
    change (len (lit "- ")) with 2. lia.
Qed.

Lemma listItem_put_then_removed_witness :
  listItem (lit "a" ++ [nl] ++ lit "  - b") 5
  = Some (lit "a" ++ [nl] ++ lit "  b", 3).
Proof.
  apply (listItem_put_then_removed (lit "a" ++ [nl] ++ lit "  b") 3
           (lit "a" ++ [nl] ++ lit "  - b") 5).
  - vm_compute. split; discriminate.
  - reflexivity.
  - reflexivity.
Defined.

(** ** From an offset to a position and back *)

Section OffsetToPosition.

Implicit Types (lines : list str) (self : Editor).

Lemma line_start_saturate lines : forall k : nat,
  (length lines <= k)%nat -> line_start lines k = line_start lines (length lines).
Proof.
  induction lines as [|l ls IH]; intros k Hk; [destruct k; reflexivity|].
  destruct k as [|k]; [simpl in Hk; lia|].
  change (line_start (l :: ls) (S k)) with (len l + 1 + line_start ls k).
  change (line_start (l :: ls) (length (l :: ls)))
    with (len l + 1 + line_start ls (length ls)).
  rewrite IH by (simpl in Hk; lia). reflexivity.
Qed.

Lemma line_start_total text :
  line_start (split nl text) (length (split nl text)) = len text + 1.
Proof.
  rewrite <- (len_join _ (split_nonempty nl text)), join_split. reflexivity.
Qed.

(** The first loop of [_get_cursor_position], for any row: the rows past
    the last line add nothing. *)
Lemma sum_loop_seq_any lines : forall (n a : nat) p,
  sum_loop lines (map (fun k => 0 + Z.of_nat k * 1) (seq a n)) p
  = Some (p + line_start lines (a + n) - line_start lines a).
Proof.
  induction n as [|n IH]; intros a p.
  - simpl. rewrite Nat.add_0_r. f_equal. lia.
  - cbn [seq map sum_loop]. replace (a + S n)%nat with (S a + n)%nat by lia.
    destruct (Z.ltb_spec (0 + Z.of_nat a * 1) (len lines)) as [Hlt|Hge];
      unfold len in *.
    + replace (0 + Z.of_nat a * 1) with (Z.of_nat a) by lia.
      rewrite index_lookup by lia.
      destruct (lookup_lt_is_Some_2 lines a) as [l Hl]; [lia|].
      rewrite Hl. cbn [mbind option_bind].
      rewrite IH. rewrite (line_start_S lines a l Hl). f_equal. unfold len. lia.
    + rewrite IH. rewrite (line_start_saturate lines a) by lia.
      rewrite (line_start_saturate lines (S a)) by lia. reflexivity.
Qed.

Lemma sum_loop_range_any lines row :
  0 <= row ->
  sum_loop lines (range row) 0 = Some (line_start lines (Z.to_nat row)).
Proof.
  intros H. unfold range, range_step.
  replace ((row - 0 + 1 - 1) / 1) with row by (rewrite Z.div_1_r; lia).
  rewrite sum_loop_seq_any.
  replace (line_start lines 0) with 0 by (destruct lines; reflexivity).
  simpl. f_equal. lia.
Qed.

Lemma index_last {A} (l : list A) :
  l <> [] -> index l (-1) = l !! (length l - 1)%nat.
Proof.
  intros Hl. unfold index, subscript, len.
  assert (0 < length l)%nat by (destruct l; [congruence|simpl; lia]).
  cbn [Z.ltb Z.compare].
  destruct (Z.leb_spec 0 (-1 + Z.of_nat (length l))); [|lia].
  destruct (Z.ltb_spec (-1 + Z.of_nat (length l)) (Z.of_nat (length l))); [|lia].
  cbn [andb mbind option_bind]. f_equal. lia.
Qed.

(** The offset of a position in a line of the document. *)
Lemma get_cursor_position_at self (k : nat) col line :
  cursor_location self = (Z.of_nat k, col) ->
  split nl (text self) !! k = Some line ->
  _get_cursor_position self
  = Some (line_start (split nl (text self)) k + Z.min col (len line)).
Proof.
  intros Hloc Hk. unfold _get_cursor_position. rewrite Hloc.
  pose proof (lookup_lt_Some _ _ _ Hk) as Hlt.
  rewrite sum_loop_range_any by lia. cbn [mbind option_bind].
  destruct (Z.ltb_spec (Z.of_nat k) (len (split nl (text self)))) as [_|Hge];
    [|unfold len in Hge; lia].
  rewrite index_lookup, Nat2Z.id, Hk by exact Hlt. reflexivity.
Qed.

(** [_set_cursor_position] at an offset within the text, and the offset of
    the position it sets. *)
Lemma set_cursor_position_in_range self pos :
  0 <= pos <= len (text self) ->
  exists (k : nat) line self',
    split nl (text self) !! k = Some line
    /\ line_start (split nl (text self)) k <= pos
       <= line_start (split nl (text self)) k + len line
    /\ _set_cursor_position self pos = Some self'
    /\ text self' = text self
    /\ cursor_location self'
       = (Z.of_nat k, pos - line_start (split nl (text self)) k)
    /\ _get_cursor_position self' = Some pos.
Proof.
  intros Hpos.
  destruct (line_walk_in_range (text self) pos Hpos) as (k & line & Hk & Hr & Hw).
  exists k, line. eexists. split; [exact Hk|]. split; [exact Hr|].
  unfold _set_cursor_position. rewrite Hw.
  split; [reflexivity|]. split; [reflexivity|]. split; [reflexivity|].
  rewrite (get_cursor_position_at _ k (pos - line_start (split nl (text self)) k) line);
    [|reflexivity|exact Hk].
  cbn [text]. f_equal. lia.
Qed.

End OffsetToPosition.

(** X10. An offset within the text, turned into a position by
    [_set_cursor_position] and back into an offset by
    [_get_cursor_position], is the same offset; the position is a row of
    the document and a column from 0 to the length of that line, and the
    text of the editor is not changed. *)
Theorem offset_position_roundtrip (self : Editor) (pos : Z) :
  0 <= pos <= len (text self) ->
  exists self' row col line,
    _set_cursor_position self pos = Some self'
    /\ text self' = text self
    /\ cursor_location self' = (row, col)
    /\ 0 <= row
    /\ split nl (text self) !! Z.to_nat row = Some line
    /\ 0 <= col <= len line
    /\ _get_cursor_position self' = Some pos.
Proof.
  intros Hpos.
  destruct (set_cursor_position_in_range self pos Hpos)
    as (k & line & self' & Hk & Hr & Hset & Htext & Hloc & Hget).
  exists self', (Z.of_nat k), (pos - line_start (split nl (text self)) k), line.
  rewrite Nat2Z.id. repeat split; try assumption; lia.
Qed.

Lemma offset_position_roundtrip_witness :
  exists self' row col line,
    _set_cursor_position
      {| text := lit "ab" ++ [nl] ++ lit "cd"; cursor_location := (0, 0) |} 4
    = Some self'
    /\ text self' = lit "ab" ++ [nl] ++ lit "cd"
    /\ cursor_location self' = (row, col)
    /\ 0 <= row
    /\ split nl (lit "ab" ++ [nl] ++ lit "cd") !! Z.to_nat row = Some line
    /\ 0 <= col <= len line
    /\ _get_cursor_position self' = Some 4.
Proof.
  apply (offset_position_roundtrip
           {| text := lit "ab" ++ [nl] ++ lit "cd"; cursor_location := (0, 0) |} 4).
  vm_compute. split; discriminate.
Defined.

(** X11. An offset past the end of the text is clamped by
    [_set_cursor_position] to the end of the last line: the row is the last
    one, the column is the length of the last line, and the offset of that
    position is the length of the text. *)
Theorem offset_past_end_is_clamped (self : Editor) (pos : Z) :
  len (text self) < pos ->
  exists self' last_line,
    _set_cursor_position self pos = Some self'
    /\ text self' = text self
    /\ last (split nl (text self)) = Some last_line
    /\ cursor_location self'
       = (len (split nl (text self)) - 1, len last_line)
    /\ _get_cursor_position self' = Some (len (text self)).
Proof.
  intros Hpast. unfold _set_cursor_position.
  rewrite (line_walk_past_end _ _ Hpast).
  pose proof (split_nonempty nl (text self)) as Hne.
  set (lines := split nl (text self)) in *.
  assert (Hn : (0 < length lines)%nat)
    by (destruct lines; [congruence|simpl; lia]).
  destruct (lookup_lt_is_Some_2 lines (length lines - 1)) as [l Hl]; [lia|].
  rewrite (index_last lines Hne), Hl.
  destruct lines as [|l0 ls] eqn:E; [congruence|]. rewrite <- E in *.
  cbn [mbind option_bind]. eexists _, l.
  split; [reflexivity|]. split; [reflexivity|].
  split; [rewrite last_lookup; rewrite <- Hl; f_equal; lia|].
  split; [reflexivity|].
  replace (len lines - 1) with (Z.of_nat (length lines - 1))
    by (unfold len; lia).
  rewrite (get_cursor_position_at _ (length lines - 1) (len l) l);
    [|reflexivity|exact Hl].
  cbn [text]. fold lines.
  pose proof (line_start_S lines _ l Hl) as HS.
  replace (S (length lines - 1)) with (length lines) in HS by lia.
  subst lines. rewrite line_start_total in HS. f_equal. lia.
Qed.

Lemma offset_past_end_is_clamped_witness :
  exists self' last_line,
    _set_cursor_position
      {| text := lit "ab" ++ [nl] ++ lit "c"; cursor_location := (0, 0) |} 9
    = Some self'
    /\ text self' = lit "ab" ++ [nl] ++ lit "c"
    /\ last (split nl (lit "ab" ++ [nl] ++ lit "c")) = Some last_line
    /\ cursor_location self'
       = (len (split nl (lit "ab" ++ [nl] ++ lit "c")) - 1, len last_line)
    /\ _get_cursor_position self' = Some (len (lit "ab" ++ [nl] ++ lit "c")).
Proof.
  apply (offset_past_end_is_clamped
           {| text := lit "ab" ++ [nl] ++ lit "c"; cursor_location := (0, 0) |} 9).
  vm_compute. reflexivity.
Defined.

(** X12. For a row and a column that are not negative,
    [_get_cursor_position] returns an offset within the text when the row
    is a line of the document, whatever the column; for a row past the last
    line it returns the length of the text plus 1, which is not an offset of
    the text. *)
Theorem get_cursor_position_range (self : Editor) (row col : Z) :
  cursor_location self = (row, col) ->
  0 <= row -> 0 <= col ->
  exists pos,
    _get_cursor_position self = Some pos
    /\ (row < len (split nl (text self)) -> 0 <= pos <= len (text self))
    /\ (len (split nl (text self)) <= row -> pos = len (text self) + 1).
Proof.
  intros Hloc Hrow Hcol.
  destruct (Z_lt_ge_dec row (len (split nl (text self)))) as [Hlt|Hge].
  - destruct (lookup_lt_is_Some_2 (split nl (text self)) (Z.to_nat row))
      as [line Hline]; [unfold len in Hlt; lia|].
    eexists. split.
    + apply (get_cursor_position_at self (Z.to_nat row) col line);
        [rewrite Hloc; f_equal; lia|exact Hline].
    + split; [|lia]. intros _.
      pose proof (line_start_le _ _ _ Hline) as Hle. rewrite join_split in Hle.
      pose proof (line_start_nonneg (split nl (text self)) (Z.to_nat row)).
      pose proof (len_nonneg line). lia.
  - eexists. split.
    + unfold _get_cursor_position. rewrite Hloc.
      rewrite sum_loop_range_any by lia. cbn [mbind option_bind].
      destruct (Z.ltb_spec row (len (split nl (text self)))); [lia|]. reflexivity.
    + split; [lia|]. intros _.
      rewrite line_start_saturate by (unfold len in Hge; lia).
      apply line_start_total.
Qed.

Lemma get_cursor_position_range_witness :
  exists pos,
    _get_cursor_position {| text := lit "ab"; cursor_location := (3, 1) |} = Some pos
    /\ (3 < len (split nl (lit "ab")) -> 0 <= pos <= len (lit "ab"))
    /\ (len (split nl (lit "ab")) <= 3 -> pos = len (lit "ab") + 1).
Proof.
  apply (get_cursor_position_range {| text := lit "ab"; cursor_location := (3, 1) |} 3 1).
  - reflexivity.
  - lia.
  - lia.
Defined.



(** ** An action of the editor, from cursor to cursor *)

Lemma bounded_operation_in_bounds func (text : str) (pos : Z) :
  In func bounded_operations ->
  0 <= pos <= len text ->
  exists new_text new_pos,
    func text pos = Some (new_text, new_pos) /\ 0 <= new_pos <= len new_text.
Proof.
  intros Hin Hpos. destruct Hin as [<-|[<-|[<-|[<-|[<-|[]]]]]].
  - apply wrap_offset_in_bounds, Hpos.
  - apply wrap_offset_in_bounds, Hpos.
  - apply wrap_offset_in_bounds, Hpos.
  - apply link_offset_in_bounds, Hpos.
  - apply codeBlock_offset_in_bounds, Hpos.
Qed.

(** X13. [_format_text] with [bold], [italic], [inlineCode], [link] or
    [codeBlock], on an editor whose cursor is on a line of its text with a
    column that is not negative, and whose assignment to [text] stores the
    text: the operation is called at the offset of the cursor, it returns,
    the editor has the text it returned, and the cursor is set where the
    offset it returned is, so that [_get_cursor_position] gives that offset
    back. *)
Theorem format_text_puts_cursor_on_offset
    (assign_text : Editor -> str -> Editor) (self : Editor)
    (row col : Z) (line : str) (func : str -> Z -> option (str * Z)) :
  (forall e t, text (assign_text e t) = t) ->
  cursor_location self = (row, col) ->
  0 <= row -> 0 <= col ->
  split nl (text self) !! Z.to_nat row = Some line ->
  In func bounded_operations ->
  exists pos new_text new_pos self',
    _get_cursor_position self = Some pos
    /\ func (text self) pos = Some (new_text, new_pos)
    /\ _format_text assign_text self func = Some self'
    /\ text self' = new_text
    /\ _get_cursor_position self' = Some new_pos.
Proof.
  intros Hassign Hloc Hrow Hcol Hline Hfunc.
  assert (Hget : _get_cursor_position self
                 = Some (line_start (split nl (text self)) (Z.to_nat row)
                         + Z.min col (len line))).
  { apply get_cursor_position_at; [rewrite Hloc; f_equal; lia|exact Hline]. }
  set (pos := line_start (split nl (text self)) (Z.to_nat row) + Z.min col (len line))
    in *.
  assert (Hpos : 0 <= pos <= len (text self)).
  { pose proof (line_start_le _ _ _ Hline) as Hle. rewrite join_split in Hle.
    pose proof (line_start_nonneg (split nl (text self)) (Z.to_nat row)).
    pose proof (len_nonneg line). subst pos. lia. }
  destruct (bounded_operation_in_bounds func (text self) pos Hfunc Hpos)
    as (new_text & new_pos & Hop & Hbound).
  rewrite <- (Hassign self new_text) in Hbound.
  destruct (set_cursor_position_in_range (assign_text self new_text) new_pos Hbound)
    as (k & line' & self' & _ & _ & Hset & Htext & _ & Hget').
  exists pos, new_text, new_pos, self'.
  split; [exact Hget|]. split; [exact Hop|]. split.
  - unfold _format_text. rewrite Hget. cbn [mbind option_bind].
    rewrite Hop. cbn [mbind option_bind]. exact Hset.
  - split; [rewrite Htext; apply Hassign|exact Hget'].
Qed.

Lemma format_text_puts_cursor_on_offset_witness :
  exists pos new_text new_pos self',
    _get_cursor_position {| text := lit "ab"; cursor_location := (0, 1) |} = Some pos
    /\ link (text {| text := lit "ab"; cursor_location := (0, 1) |}) pos
       = Some (new_text, new_pos)
    /\ _format_text
         (fun e t => {| text := t; cursor_location := cursor_location e |})
         {| text := lit "ab"; cursor_location := (0, 1) |} link
       = Some self'
    /\ text self' = new_text
    /\ _get_cursor_position self' = Some new_pos.
Proof.
  apply (format_text_puts_cursor_on_offset
           (fun e t => {| text := t; cursor_location := cursor_location e |})
           {| text := lit "ab"; cursor_location := (0, 1) |} 0 1 (lit "ab") link).
  - reflexivity.
  - reflexivity.
  - lia.
  - lia.
  - reflexivity.
  - right; right; right; left. reflexivity.
Defined.

(** ** What the toggle can do to a text *)

Section Pairs.

Implicit Types (w s x y c : str) (ms : list Match).

(** Every match of the scan is an occurrence of the delimiter. *)
Lemma finditer_from_occurrence w s : forall i skip m,
  In m (finditer_from w s i skip) ->
  exists x y, s = x ++ w ++ y /\ m_start m = i + len x.
Proof.
  induction s as [|a s IH]; intros i skip m Hin; [destruct Hin|].
  assert (Htail : In m (finditer_from w s (i + 1) 0)
                  \/ (exists k, In m (finditer_from w s (i + 1) k))
                  -> exists x y, a :: s = x ++ w ++ y /\ m_start m = i + len x).
  { intros [H|(k & H)]; apply IH in H; destruct H as (x & y & -> & E);
      exists (a :: x), y; rewrite len_cons; split; (reflexivity || lia). }
  cbn [finditer_from] in Hin. destruct skip as [|skip]; [|apply Htail; eauto].
  destruct (startswith (a :: s) w) eqn:E; [|apply Htail; eauto].
  destruct Hin as [<-|Hin]; [|apply Htail; eauto].
  apply startswith_spec in E. destruct E as (r & E).
  exists [], r. split; [exact E|]. cbn [m_start]. rewrite len_nil. lia.
Qed.

Lemma chain_weaken ms lo lo' wlen : lo' <= lo -> chain lo wlen ms -> chain lo' wlen ms.
Proof. destruct ms as [|m ms]; [trivial|]. simpl. intros H (H1 & H2). split; [lia|exact H2]. Qed.

(** The matches of the scan do not overlap. *)
Lemma finditer_from_chain w s :
  w <> [] ->
  forall i skip, chain (i + Z.of_nat skip) (len w) (finditer_from w s i skip).
Proof.
  intros Hw. induction s as [|a s IH]; intros i skip; [exact I|].
  cbn [finditer_from]. destruct skip as [|skip].
  - destruct (startswith (a :: s) w).
    + cbn [chain m_start m_end]. split; [lia|]. split; [reflexivity|].
      apply (chain_weaken _ (i + 1 + Z.of_nat (Nat.pred (length w)))); [|apply IH].
      destruct w; [congruence|]. unfold len. simpl length. simpl Nat.pred. lia.
    + apply (chain_weaken _ (i + 1 + Z.of_nat 0)); [lia|apply IH].
  - apply (chain_weaken _ (i + 1 + Z.of_nat skip)); [lia|apply IH].
Qed.

Lemma chain_lookup ms : forall (n : nat) lo wlen m1 m2,
  chain lo wlen ms ->
  ms !! n = Some m1 -> ms !! S n = Some m2 ->
  m_end m1 = m_start m1 + wlen
  /\ m_end m1 <= m_start m2
  /\ m_end m2 = m_start m2 + wlen.
Proof.
  induction ms as [|m ms IH]; intros n lo wlen m1 m2 Hc H1 H2; [discriminate|].
  destruct Hc as (_ & He & Hc). destruct n as [|n]; simpl in H1, H2.
  - injection H1 as <-. destruct ms as [|m' ms]; [discriminate|].
    injection H2 as <-. destruct Hc as (Hlo & He' & _). auto.
  - exact (IH n _ _ _ _ Hc H1 H2).
Qed.

(** The loop of [_wrap] runs to its end, or it returns at two matches that
    follow each other, the offset of the search between them. *)
Lemma wrap_loop_found text left search_pos wlen ms idx :
  Forall (fun i => exists k : nat, i = Z.of_nat (2 * k)) idx ->
  wrap_loop text left search_pos wlen ms idx = Some None
  \/ exists (n : nat) m1 m2,
       ms !! n = Some m1 /\ ms !! S n = Some m2
       /\ m_end m1 <= search_pos <= m_start m2
       /\ wrap_loop text left search_pos wlen ms idx
          = Some (Some
                    (slice_to text (left + m_start m1)
                       ++ slice text (left + m_start m1 + wlen) (left + m_end m2 - wlen)
                       ++ slice_from text (left + m_end m2),
                     left + m_start m1
                     + len (slice text (left + m_start m1 + wlen)
                              (left + m_end m2 - wlen)))).
Proof.
  intros Hidx. induction Hidx as [|i idx (k & ->) _ IH]; [left; reflexivity|].
  remember (2 * k)%nat as n eqn:En. cbn [wrap_loop].
  destruct (Z.ltb_spec (Z.of_nat n + 1) (len ms)) as [Hlt|_]; [|exact IH].
  unfold len in Hlt.
  destruct (lookup_lt_is_Some_2 ms n) as [m1 H1]; [lia|].
  destruct (lookup_lt_is_Some_2 ms (S n)) as [m2 H2]; [lia|].
  rewrite index_lookup by lia. rewrite H1. cbn [mbind option_bind].
  replace (Z.of_nat n + 1) with (Z.of_nat (S n)) by lia.
  rewrite index_lookup by lia. rewrite H2. cbn [mbind option_bind].
  destruct (Z.leb_spec (m_end m1) search_pos);
    destruct (Z.leb_spec search_pos (m_start m2)); cbn [andb]; try exact IH.
  right. exists n, m1, m2. repeat split; (assumption || reflexivity).
Qed.

(** Two occurrences, the second one starting after the first one ends. *)
Lemma two_occurrences w s x1 y1 x2 y2 :
  s = x1 ++ w ++ y1 -> s = x2 ++ w ++ y2 ->
  len x1 + len w <= len x2 ->
  exists c, s = x1 ++ w ++ c ++ w ++ y2 /\ len x2 = len x1 + len w + len c.
Proof.
  intros E1 E2 Hle. rewrite E1 in E2.
  rewrite (app_assoc x1 w y1) in E2.
  apply app_eq_app in E2. destruct E2 as (l & [(Ea & Eb)|(Ea & Eb)]).
  - assert (l = []) as ->.
    { apply (f_equal (@length N)) in Ea. rewrite !length_app in Ea.
      unfold len in Hle. destruct l; [reflexivity|simpl in Ea; lia]. }
    rewrite app_nil_r in Ea. exists []. rewrite E1, Eb. simpl.
    split; [reflexivity|]. rewrite <- Ea, len_app, len_nil. lia.
  - exists l. rewrite E1, Eb. split; [reflexivity|].
    rewrite Ea, !len_app. lia.
Qed.

Lemma slice_decompose {A} (l : list A) lo hi :
  0 <= lo <= hi -> hi <= len l ->
  exists pre post, l = pre ++ slice l lo hi ++ post /\ len pre = lo.
Proof.
  intros H1 H2. exists (take (Z.to_nat lo) l), (drop (Z.to_nat hi) l).
  rewrite slice_in_range by lia. split.
  - rewrite <- (take_drop (Z.to_nat lo) l) at 1. f_equal.
    rewrite <- (take_drop (Z.to_nat (hi - lo)) (drop (Z.to_nat lo) l)) at 1.
    f_equal. rewrite drop_drop. f_equal. lia.
  - unfold len in *. rewrite length_take. lia.
Qed.

(** The three slices of the removal, on a text in which the pair is shown. *)
Lemma remove_pair_slices x w c y :
  slice_to (x ++ w ++ c ++ w ++ y) (len x) = x
  /\ slice (x ++ w ++ c ++ w ++ y) (len x + len w) (len x + len w + len c) = c
  /\ slice_from (x ++ w ++ c ++ w ++ y) (len x + len w + len c + len w) = y.
Proof.
  split; [apply slice_to_app|]. split.
  - replace (x ++ w ++ c ++ w ++ y) with ((x ++ w) ++ c ++ (w ++ y))
      by (rewrite <- !app_assoc; reflexivity).
    rewrite <- len_app. apply slice_app_mid.
  - replace (x ++ w ++ c ++ w ++ y) with ((x ++ w ++ c ++ w) ++ y)
      by (rewrite <- !app_assoc; reflexivity).
    replace (len x + len w + len c + len w) with (len (x ++ w ++ c ++ w))
      by (rewrite !len_app; lia).
    apply slice_from_app.
Qed.

End Pairs.

(** X1. What [_wrap] can do, for a delimiter that is not empty and an offset
    within the text: it returns, and either it has put two copies of the
    delimiter at the offset, or it has removed two occurrences of the
    delimiter of the text, the offset given lying between them, and returns
    the offset of the end of what was between them. Every other character
    of the text is kept, in its order, and the two occurrences removed are
    within 20 characters of the offset. *)
Theorem wrap_inserts_or_removes_a_pair (text : str) (pos : Z) (wrapper : str) :
  wrapper <> [] ->
  0 <= pos <= len text ->
  _wrap text pos wrapper
  = Some (take (Z.to_nat pos) text ++ wrapper ++ wrapper ++ drop (Z.to_nat pos) text,
          pos + len wrapper)
  \/ exists x c y,
       text = x ++ wrapper ++ c ++ wrapper ++ y
       /\ len x + len wrapper <= pos <= len x + len wrapper + len c
       /\ pos - 20 <= len x
       /\ len x + len wrapper + len c + len wrapper <= pos + 20
       /\ _wrap text pos wrapper = Some (x ++ c ++ y, len x + len c).
Proof.
  intros Hw Hpos. unfold _wrap.
  remember (Z.max 0 (pos - 20)) as left eqn:El.
  remember (Z.min (len text) (pos + 20)) as right eqn:Er.
  assert (Hl : 0 <= left <= pos /\ pos - 20 <= left) by lia.
  assert (Hr : pos <= right <= len text /\ right <= pos + 20) by lia.
  clear El Er.
  destruct (wrap_loop_found text left (pos - left) (len wrapper)
              (finditer wrapper (slice text left right))
              (range_step 0 (len (finditer wrapper (slice text left right)) - 1) 2)
              (range_step_even _))
    as [->|(n & m1 & m2 & H1 & H2 & Hc & ->)]; cbn [mbind option_bind].
  - left. rewrite slice_to_take, slice_from_drop by lia. reflexivity.
  - right.
    destruct (chain_lookup _ n _ _ m1 m2
                (finditer_from_chain wrapper (slice text left right) Hw 0 0) H1 H2)
      as (He1 & Hle & He2).
    assert (In1 : In m1 (finditer wrapper (slice text left right)))
      by (apply list_elem_of_In, list_elem_of_lookup; eauto).
    assert (In2 : In m2 (finditer wrapper (slice text left right)))
      by (apply list_elem_of_In, list_elem_of_lookup; eauto).
    apply finditer_from_occurrence in In1, In2.
    destruct In1 as (x1 & y1 & E1 & S1). destruct In2 as (x2 & y2 & E2 & S2).
    destruct (two_occurrences wrapper _ x1 y1 x2 y2 E1 E2) as (c & Es & Hx2); [lia|].
    destruct (slice_decompose text left right) as (pre & post & Et & Hpre); [lia|lia|].
    assert (Hs : len (slice text left right) = right - left)
      by (apply len_slice; lia).
    rewrite Es in Et, Hs. clear H1 H2 E1 E2 Es.
    assert (Et' : text = (pre ++ x1) ++ wrapper ++ c ++ wrapper ++ (y2 ++ post))
      by (rewrite Et at 1; rewrite <- !app_assoc; reflexivity).
    clear Et. rewrite !len_app in Hs.
    pose proof (len_nonneg y2). pose proof (len_nonneg c).
    pose proof (len_nonneg x1).
    exists (pre ++ x1), c, (y2 ++ post).
    assert (Ex : len (pre ++ x1) = left + m_start m1) by (rewrite len_app; lia).
    split; [exact Et'|]. rewrite Ex.
    split; [lia|]. split; [lia|]. split; [lia|].
    replace (left + m_start m1 + len wrapper)
      with (len (pre ++ x1) + len wrapper) by lia.
    replace (left + m_end m2 - len wrapper)
      with (len (pre ++ x1) + len wrapper + len c) by lia.
    replace (left + m_end m2)
      with (len (pre ++ x1) + len wrapper + len c + len wrapper) by lia.
    rewrite <- Ex. rewrite Et'.
    destruct (remove_pair_slices (pre ++ x1) wrapper c (y2 ++ post))
      as (-> & -> & ->).
    reflexivity.
Qed.

Lemma wrap_inserts_or_removes_a_pair_witness :
  _wrap (lit "a*b*c") 2 (lit "*")
  = Some (take (Z.to_nat 2) (lit "a*b*c") ++ lit "*" ++ lit "*"
            ++ drop (Z.to_nat 2) (lit "a*b*c"),
          2 + len (lit "*"))
  \/ exists x c y,
       lit "a*b*c" = x ++ lit "*" ++ c ++ lit "*" ++ y
       /\ len x + len (lit "*") <= 2 <= len x + len (lit "*") + len c
       /\ 2 - 20 <= len x
       /\ len x + len (lit "*") + len c + len (lit "*") <= 2 + 20
       /\ _wrap (lit "a*b*c") 2 (lit "*") = Some (x ++ c ++ y, len x + len c).
Proof.
  apply (wrap_inserts_or_removes_a_pair (lit "a*b*c") 2 (lit "*")).
  - discriminate.
  - vm_compute. split; discriminate.
Defined.

(** ** Toggling off *)

Section Unwrap.

Implicit Types (w a b c s : str).

(** The removal of the span [w ++ c ++ w] after [a], provided the scan of
    the window reaches each of its two delimiters without a match. *)
Lemma wrap_removes_span w a c b pos :
  w <> [] ->
  len a + len w <= pos <= len a + len w + len c ->
  pos - 20 <= len a ->
  len a + len w + len c + len w <= pos + 20 ->
  (forall s i,
      finditer_from w (drop (Z.to_nat (Z.max 0 (pos - 20))) a ++ w ++ s) i 0
      = finditer_from w (w ++ s)
          (i + len (drop (Z.to_nat (Z.max 0 (pos - 20))) a)) 0) ->
  (forall s i,
      finditer_from w (c ++ w ++ s) i 0 = finditer_from w (w ++ s) (i + len c) 0) ->
  _wrap (a ++ w ++ c ++ w ++ b) pos w = Some (a ++ c ++ b, len a + len c).
Proof.
  intros Hw Hpos Hleft Hright Hscan_a Hscan_c.
  pose proof (len_nonneg a) as Ha. pose proof (len_nonneg b) as Hb.
  pose proof (len_nonneg c) as Hc. pose proof (len_nonneg w) as Hwl.
  unfold _wrap. set (left := Z.max 0 (pos - 20)) in *.
  set (right := Z.min (len (a ++ w ++ c ++ w ++ b)) (pos + 20)).
  assert (Hl : 0 <= left <= len a) by (subst left; lia).
  assert (Hlen : len (a ++ w ++ c ++ w ++ b)
                 = len a + len w + len c + len w + len b)
    by (rewrite !len_app; lia).
  assert (E : slice (a ++ w ++ c ++ w ++ b) left right
              = drop (Z.to_nat left) a ++ w ++ c ++ w
                  ++ take (Z.to_nat (right - len a - len (w ++ c ++ w))) b).
  { replace (a ++ w ++ c ++ w ++ b) with (a ++ (w ++ c ++ w) ++ b)
      by (rewrite <- !app_assoc; reflexivity).
    rewrite slice_around, <- !app_assoc; [reflexivity|lia|].
    rewrite !len_app. subst right. rewrite !len_app. lia. }
  rewrite E. unfold finditer.
  rewrite Hscan_a, finditer_from_hit, Hscan_c, finditer_from_hit by exact Hw.
  set (a' := drop (Z.to_nat left) a).
  assert (Ha' : len a' = len a - left)
    by (subst a'; unfold len in *; rewrite length_drop; lia).
  match goal with
  | |- context [?m1 :: ?m2 :: finditer_from ?x ?y ?z ?n] =>
      set (rest := finditer_from x y z n)
  end.
  destruct (range_step_head
              (len ({| m_start := 0 + len a'; m_end := 0 + len a' + len w |}
                      :: {| m_start := 0 + len a' + len w + len c;
                            m_end := 0 + len a' + len w + len c + len w |}
                      :: rest) - 1))
    as (tl & ->); [rewrite !len_cons; pose proof (len_nonneg rest); lia|].
  rewrite wrap_loop_first by (cbn [m_start m_end]; lia).
  cbn [m_start m_end mbind option_bind].
  replace (left + (0 + len a')) with (len a) by lia.
  replace (left + (0 + len a' + len w + len c + len w) - len w)
    with (len a + len w + len c) by lia.
  replace (left + (0 + len a' + len w + len c + len w))
    with (len a + len w + len c + len w) by lia.
  destruct (remove_pair_slices a w c b) as (-> & -> & ->). reflexivity.
Qed.

End Unwrap.

(** X2. Toggling off. The text is [a ++ wrapper ++ c ++ wrapper ++ b],
    with one of the three delimiters, the offset is between the two copies
    (their inner ends included), both copies are within 20 characters of
    the offset, and the delimiter occurs neither in [c] nor in what the
    window holds of [a]; for [**], neither [a] nor [c] ends with [*]. Then
    [_wrap] removes the two copies and returns the offset of the end of
    [c]. *)
Theorem wrap_unwraps_span (a c b : str) (pos : Z) (wrapper : str) :
  In wrapper delimiters ->
  len a + len wrapper <= pos <= len a + len wrapper + len c ->
  pos - 20 <= len a ->
  len a + len wrapper + len c + len wrapper <= pos + 20 ->
  no_occurrence wrapper (drop (Z.to_nat (Z.max 0 (pos - 20))) a) ->
  no_occurrence wrapper c ->
  (wrapper = lit "**" ->
   (forall a0, a <> a0 ++ lit "*") /\ (forall c0, c <> c0 ++ lit "*")) ->
  _wrap (a ++ wrapper ++ c ++ wrapper ++ b) pos wrapper
  = Some (a ++ c ++ b, len a + len c).
Proof.
  intros Hw Hpos Hleft Hright Hna Hnc Hstar.
  destruct Hw as [<-|[<-|[<-|[]]]].
  - destruct (Hstar eq_refl) as (Ha & Hc).
    apply wrap_removes_span; try assumption; [discriminate| |];
      intros s i; change (lit "**") with [42%N; 42%N] in *.
    + apply (finditer_from_prefix_double 42%N _ (42%N :: s) i Hna).
      apply (drop_not_ending [42%N; 42%N]). exact Ha.
    + exact (finditer_from_prefix_double 42%N c (42%N :: s) i Hnc Hc).
  - apply wrap_removes_span; try assumption; [discriminate| |];
      intros s i; change (lit "*") with [42%N] in *;
      apply finditer_from_prefix_single, no_occurrence_not_in; assumption.
  - apply wrap_removes_span; try assumption; [discriminate| |];
      intros s i; change (lit "`") with [96%N] in *;
      apply finditer_from_prefix_single, no_occurrence_not_in; assumption.
Qed.

Lemma wrap_unwraps_span_witness :
  _wrap (lit "say " ++ lit "**" ++ lit "hi" ++ lit "**" ++ lit " now") 7 (lit "**")
  = Some (lit "say " ++ lit "hi" ++ lit " now", len (lit "say ") + len (lit "hi")).
Proof.
  apply (wrap_unwraps_span (lit "say ") (lit "hi") (lit " now") 7 (lit "**")).
  - left. reflexivity.
  - vm_compute. split; discriminate.
  - vm_compute. discriminate.
  - vm_compute. discriminate.
  - intros x y E. change (drop (Z.to_nat (Z.max 0 (7 - 20))) (lit "say "))
      with [115%N; 97%N; 121%N; 32%N] in E.
    change (lit "**") with [42%N; 42%N] in E.
    destruct x as [|x1 [|x2 [|x3 [|x4 x]]]]; try discriminate E.
    destruct x; discriminate E.
  - intros x y E. change (lit "hi") with [104%N; 105%N] in E.
    change (lit "**") with [42%N; 42%N] in E.
    destruct x as [|x1 [|x2 x]]; try discriminate E.
    destruct x; discriminate E.
  - intros _. split; intros x E.
    + change (lit "say ") with [115%N; 97%N; 121%N; 32%N] in E.
      change (lit "*") with [42%N] in E.
      destruct x as [|x1 [|x2 [|x3 [|x4 x]]]]; try discriminate E.
      destruct x; discriminate E.
    + change (lit "hi") with [104%N; 105%N] in E.
      change (lit "*") with [42%N] in E.
      destruct x as [|x1 [|x2 x]]; try discriminate E.
      destruct x; discriminate E.
Defined.

(** ** Exceptions and bounds, operation by operation *)

Section Returns.

Implicit Types (lines : list str) (text : str).



End Returns.


(** X16. The bounds that hold. At an offset within the text, [bold],
    [italic], [inlineCode], [link] and [codeBlock] return an offset from 0
    to the length of the text they return; [heading], with any level, and
    [listItem] return an offset that is at most the length of the text
    they return. *)
Theorem offsets_returned_within_bounds (text : str) (pos : Z) :
  0 <= pos <= len text ->
  (forall func,
      In func bounded_operations ->
      exists new_text new_pos,
        func text pos = Some (new_text, new_pos) /\ 0 <= new_pos <= len new_text)
  /\ (forall level,
         exists new_text new_pos,
           heading text pos level = Some (new_text, new_pos)
           /\ new_pos <= len new_text)
  /\ (exists new_text new_pos,
         listItem text pos = Some (new_text, new_pos) /\ new_pos <= len new_text).
Proof.
  intros Hpos. split; [|split].
  - intros func Hin. exact (bounded_operation_in_bounds func text pos Hin Hpos).
  - intros level. exact (heading_offset_upper_bound text pos level Hpos).
  - exact (listItem_offset_upper_bound text pos Hpos).
Qed.

Lemma offsets_returned_within_bounds_witness :
  (forall func,
      In func bounded_operations ->
      exists new_text new_pos,
        func (lit "# a") 3 = Some (new_text, new_pos)
        /\ 0 <= new_pos <= len new_text)
  /\ (forall level,
         exists new_text new_pos,
           heading (lit "# a") 3 level = Some (new_text, new_pos)
           /\ new_pos <= len new_text)
  /\ (exists new_text new_pos,
         listItem (lit "# a") 3 = Some (new_text, new_pos)
         /\ new_pos <= len new_text).
Proof.
  apply (offsets_returned_within_bounds (lit "# a") 3).
  vm_compute. split; discriminate.
Defined.

(** ** More than six [#] *)

(** X3. The marker that [heading] replaces has at most six [#]: on a line
    that starts with seven of them, six are replaced by the new marker and
    the seventh stays, as the first character of the content. *)
Theorem heading_leaves_seventh_hash (text : str) (pos level : Z) (k : nat) (r : str) :
  1 <= level <= 6 ->
  split nl text !! k = Some (lit "#######" ++ r) ->
  line_start (split nl text) k <= pos
  <= line_start (split nl text) k + len (lit "#######" ++ r) ->
  exists new_pos,
    heading text pos level
    = Some (join [nl] (<[k := times hash level ++ [space] ++ hash :: r]>
                         (split nl text)), new_pos).
Proof.
  intros Hlevel Hk Hr. eexists.
  rewrite (heading_at text pos k _ Hk Hr level Hlevel).
  assert (E : heading_line level (lit "#######" ++ r)
              = times hash level ++ [space] ++ hash :: r).
  { unfold heading_line.
    replace (match_heading (lit "#######" ++ r))
      with (Some {| m_start := 0; m_end := Z.of_nat 6 |}) by reflexivity.
    cbn [m_end]. rewrite slice_from_nat; [reflexivity|].
    rewrite length_app. change (length (lit "#######")) with 7%nat. lia. }
  rewrite E. reflexivity.
Qed.

Lemma heading_leaves_seventh_hash_witness :
  exists new_pos,
    heading (lit "####### x") 0 2
    = Some (join [nl] (<[0%nat := times hash 2 ++ [space] ++ hash :: lit " x"]>
                         (split nl (lit "####### x"))), new_pos).
Proof.
  apply (heading_leaves_seventh_hash (lit "####### x") 0 2 0 (lit " x")).
  - lia.
  - reflexivity.
  - vm_compute. split; discriminate.
Defined.
